(** * CommandQueue.h: the flow-controlled command queues of the CNC pendant

    A shallow embedding of [src/CommandQueue.h] (the [Counter] interface, its
    two implementations [SizedQueue] and [SimpleCounter], and the tagged
    [MessageQueue]) together with the properties of the queue layer.

    Conventions.
    - [size_t] is the 32-bit unsigned type of the ESP32; every arithmetic
      operation the source performs on it is written with its wrap-around.
    - A [char*]/[size_t] pair is a list of bytes and a length; the callee
      reads the first [len] bytes.
    - [assert(e)] aborts the firmware when [e] is zero; an operation that can
      abort returns an [option], [None] being the abort. *)

From Stdlib Require Import ZArith List Lia Bool.
From Stdlib Require Import Init.Byte.
From stdpp Require Import base list.
From Stdlib Require Ascii String.
Import ListNotations.
Local Open Scope Z_scope.

(** ** Machine integers *)

Definition size_t (z : Z) : Z := z mod 2 ^ 32.
Definition uint8_t (z : Z) : Z := z mod 2 ^ 8.

(** ** The record store: FreeRTOS message buffers ([message_buffer.h])

    Modelled from the spec: the record store, i.e. the FreeRTOS message
    buffer behind [xMessageBufferCreateStatic], [xMessageBufferSend],
    [xMessageBufferReceive] and [xMessageBufferReset], which is not part of
    the repository.  Its contract: a FIFO of whole, length-framed records;
    [send] fails at once when there is not enough room and never writes a
    part of a record; [receive] returns 0 when the store is empty and
    otherwise copies out exactly one record; [reset] discards every record.
    All calls are made with a zero block time.

    What the contract leaves open follows the FreeRTOS interface the header
    is written against.
    - Every message is preceded in the storage area by its length, which
      takes [sbBYTES_TO_STORE_MESSAGE_LENGTH] bytes (the size of a [size_t],
      4 on the ESP32); the number is a parameter of the model.
    - At most [xBufferSizeBytes - 1] bytes of the storage area are in use.
    - [xMessageBufferSend] returns the number of bytes written, which the
      header tests against 0: the length of the message when it fits, and 0
      when it does not or when there is no byte to write (length 0).  The
      buffer is unchanged in the second case.
    - [xMessageBufferReceive] copies the oldest message to the start of the
      caller's buffer and returns its length; a message longer than the
      caller's buffer stays where it is and 0 is returned. *)

Module MessageBuffer.

Record t : Type := mk {
  xLength : Z;                    (* size of the storage area *)
  messages : list (list byte)     (* oldest first *)
}.

Section Framing.
Variable sbBYTES_TO_STORE_MESSAGE_LENGTH : Z.

Definition bytesUsed (b : t) : Z :=
  fold_right
    (fun m acc => Z.of_nat (length m) + sbBYTES_TO_STORE_MESSAGE_LENGTH + acc)
    0 (messages b).

Definition spacesAvailable (b : t) : Z := xLength b - 1 - bytesUsed b.

Definition xMessageBufferSend (b : t) (data : list byte) (len : Z)
  : t * Z :=
  if (0 <? len) && (len + sbBYTES_TO_STORE_MESSAGE_LENGTH <=? spacesAvailable b)
  then (mk (xLength b) (messages b ++ [take (Z.to_nat len) data]), len)
  else (b, 0).
End Framing.

Definition xMessageBufferCreateStatic (xBufferSizeBytes : Z) : t :=
  mk xBufferSizeBytes [].

Definition xMessageBufferReset (b : t) : t := mk (xLength b) [].

(** [rx] is the caller's buffer before the call; the result holds the
    buffer after the call and the returned length. *)
Definition xMessageBufferReceive (b : t) (rx : list byte) (maxlen : Z)
  : t * list byte * Z :=
  match messages b with
  | [] => (b, rx, 0)
  | m :: rest =>
      if Z.of_nat (length m) <=? maxlen
      then (mk (xLength b) rest, m ++ drop (length m) rx, Z.of_nat (length m))
      else (b, rx, 0)
  end.

End MessageBuffer.

(** ** etl::queue<T, N>: a bounded FIFO

    Modelled from the spec: the bounded FIFO [etl::queue] of the Embedded
    Template Library, which is not part of the repository; only the
    operations the header uses.  [push] on a full queue and [front]/[pop] on
    an empty one are errors of the caller in ETL; the header guards every
    call, and the model makes the unguarded cases explicit: [push] on a full
    queue leaves it unchanged, [front] is partial. *)

Module EtlQueue.
Section Bounded.
Context {T : Type}.
Variable N : Z.

Definition size (q : list T) : Z := Z.of_nat (length q).
Definition available (q : list T) : Z := N - size q.
Definition push (q : list T) (x : T) : list T :=
  if size q <? N then q ++ [x] else q.
End Bounded.

Definition front {T : Type} (q : list T) : option T := head q.
Definition pop {T : Type} (q : list T) : list T := tail q.
Definition clear {T : Type} (q : list T) : list T := [].
End EtlQueue.

(** ** class Counter: the interface shared by the queue back ends

    The out-parameter [char* &msg] of [peek] is returned as an option:
    [None] when [peek] leaves it untouched. *)

Record Counter (St : Type) : Type := {
  init : St;                      (* the constructed object *)
  clear : St -> St;
  canPush : St -> Z -> bool;
  push : St -> list byte -> Z -> option (bool * St);
  size : St -> Z;
  getFreeLines : St -> Z;
  bytes : St -> Z;
  getFreeBytes : St -> Z;
  peek : St -> St * Z * option (list byte);
  pop : St -> St
}.

Arguments init {St} _.
Arguments clear {St} _ _.
Arguments canPush {St} _ _ _.
Arguments push {St} _ _ _ _.
Arguments size {St} _ _.
Arguments getFreeLines {St} _ _.
Arguments bytes {St} _ _.
Arguments getFreeBytes {St} _ _.
Arguments peek {St} _ _.
Arguments pop {St} _ _.

(** ** template<LEN_LINES, LEN_BYTES, MAX_LINE_LEN> class SizedQueue *)

Module SizedQueue.

Record t : Type := mk {
  buf : MessageBuffer.t;
  freeLines : Z;
  freeBytes : Z;
  peekedLine : list byte;       (* char peekedLine[MAX_LINE_LEN+1] *)
  peekedLineLen : Z;
  havePeekedLine : bool
}.

Section Template.
Variable sbBYTES_TO_STORE_MESSAGE_LENGTH : Z.
Variables LEN_LINES LEN_BYTES MAX_LINE_LEN : Z.

(** The constructor sets [freeLines], [freeBytes] and [buf]; the other
    members keep the zero-initialised storage of an object with static
    storage duration (the firmware declares its queues as globals). *)
Definition SizedQueue : t :=
  mk (MessageBuffer.xMessageBufferCreateStatic LEN_BYTES)
     LEN_LINES LEN_BYTES
     (replicate (Z.to_nat (MAX_LINE_LEN + 1)) x00) 0 false.

Definition clear (s : t) : t :=
  mk (MessageBuffer.xMessageBufferReset (buf s))
     LEN_LINES LEN_BYTES (peekedLine s) 0 false.

Definition canPush (s : t) (len : Z) : bool :=
  let len := if len >? MAX_LINE_LEN then MAX_LINE_LEN else len in
  (freeBytes s >? size_t (len + 1)) && (freeLines s >? 0).

Definition push (s : t) (msg : list byte) (len : Z) : option (bool * t) :=
  if negb (canPush s len) then Some (false, s) else
  let len := if len >? MAX_LINE_LEN then MAX_LINE_LEN else len in
  let '(b, sent) :=
    MessageBuffer.xMessageBufferSend sbBYTES_TO_STORE_MESSAGE_LENGTH
      (buf s) msg len in
  if sent =? 0 then None else
  Some (true,
        mk b (size_t (freeLines s - 1))
             (size_t (freeBytes s - size_t (len + 1)))
             (peekedLine s) (peekedLineLen s) (havePeekedLine s)).

Definition size (s : t) : Z := size_t (LEN_LINES - freeLines s).
Definition getFreeLines (s : t) : Z := freeLines s.
Definition bytes (s : t) : Z := size_t (LEN_BYTES - freeBytes s).
Definition getFreeBytes (s : t) : Z := freeBytes s.

Definition loadLineFromBuf (s : t) : t * bool :=
  let '(b, rx, r) :=
    MessageBuffer.xMessageBufferReceive (buf s) (peekedLine s) MAX_LINE_LEN in
  let have := r >? 0 in
  (mk b (freeLines s) (freeBytes s) (<[Z.to_nat r := x00]> rx) r have, have).

Definition peek (s : t) : t * Z * option (list byte) :=
  if size s =? 0 then (s, 0, None) else
  let s := if havePeekedLine s then s else fst (loadLineFromBuf s) in
  (s, peekedLineLen s, Some (peekedLine s)).

Definition pop (s : t) : t :=
  if size s =? 0 then s else
  let fl := size_t (freeLines s + 1) in
  if havePeekedLine s then
    mk (buf s) fl (size_t (freeBytes s + size_t (peekedLineLen s + 1)))
       (peekedLine s) 0 false
  else
    let '(b, rx, r) :=
      MessageBuffer.xMessageBufferReceive (buf s) (peekedLine s) MAX_LINE_LEN in
    mk b fl (size_t (freeBytes s + size_t (r + 1)))
       rx (peekedLineLen s) (havePeekedLine s).
End Template.

End SizedQueue.

Definition SizedQueue_Counter
  (sbBYTES_TO_STORE_MESSAGE_LENGTH LEN_LINES LEN_BYTES MAX_LINE_LEN : Z)
  : Counter SizedQueue.t := {|
  init := SizedQueue.SizedQueue LEN_LINES LEN_BYTES MAX_LINE_LEN;
  clear := SizedQueue.clear LEN_LINES LEN_BYTES;
  canPush := SizedQueue.canPush MAX_LINE_LEN;
  push := SizedQueue.push sbBYTES_TO_STORE_MESSAGE_LENGTH MAX_LINE_LEN;
  size := SizedQueue.size LEN_LINES;
  getFreeLines := SizedQueue.getFreeLines;
  bytes := SizedQueue.bytes LEN_BYTES;
  getFreeBytes := SizedQueue.getFreeBytes;
  peek := SizedQueue.peek LEN_LINES MAX_LINE_LEN;
  pop := SizedQueue.pop LEN_LINES MAX_LINE_LEN
|}.

(** ** template<LEN_LINES, LEN_BYTES, SUFFIX_LEN> class SimpleCounter *)

Module SimpleCounter.

Record t : Type := mk {
  queue : list Z;               (* etl::queue<size_t, LEN_LINES> *)
  freeBytes : Z
}.

Section Template.
Variables LEN_LINES LEN_BYTES SUFFIX_LEN : Z.

Definition SimpleCounter : t := mk [] LEN_BYTES.

Definition clear (s : t) : t := mk (EtlQueue.clear (queue s)) LEN_BYTES.

Definition canPush (s : t) (len : Z) : bool :=
  (EtlQueue.size (queue s) <? LEN_LINES)
  && (freeBytes s >=? size_t (len + SUFFIX_LEN)).

Definition push (s : t) (msg : list byte) (len : Z) : option (bool * t) :=
  if negb (canPush s len) then Some (false, s) else
  Some (true,
        mk (EtlQueue.push LEN_LINES (queue s) len)
           (size_t (freeBytes s - size_t (len + SUFFIX_LEN)))).

Definition size (s : t) : Z := EtlQueue.size (queue s).
Definition getFreeLines (s : t) : Z :=
  size_t (LEN_LINES - EtlQueue.size (queue s)).
Definition bytes (s : t) : Z := size_t (LEN_BYTES - freeBytes s).
Definition getFreeBytes (s : t) : Z := freeBytes s.

(** [front] is only read behind the emptiness test; [default 0] is never
    taken. *)
Definition peek (s : t) : t * Z * option (list byte) :=
  if EtlQueue.size (queue s) =? 0 then (s, 0, None) else
  (s, default 0 (EtlQueue.front (queue s)), None).

Definition pop (s : t) : t :=
  if EtlQueue.size (queue s) =? 0 then s else
  let v := default 0 (EtlQueue.front (queue s)) in
  mk (EtlQueue.pop (queue s))
     (size_t (freeBytes s + size_t (v + SUFFIX_LEN))).
End Template.

End SimpleCounter.

Definition SimpleCounter_Counter (LEN_LINES LEN_BYTES SUFFIX_LEN : Z)
  : Counter SimpleCounter.t := {|
  init := SimpleCounter.SimpleCounter LEN_BYTES;
  clear := SimpleCounter.clear LEN_BYTES;
  canPush := SimpleCounter.canPush LEN_LINES SUFFIX_LEN;
  push := SimpleCounter.push LEN_LINES SUFFIX_LEN;
  size := SimpleCounter.size;
  getFreeLines := SimpleCounter.getFreeLines LEN_LINES;
  bytes := SimpleCounter.bytes LEN_BYTES;
  getFreeBytes := SimpleCounter.getFreeBytes;
  peek := SimpleCounter.peek;
  pop := SimpleCounter.pop SUFFIX_LEN
|}.

(** ** template<Tag, SIZE, MAX_LINE_LEN> class MessageQueue

    A [Tag*] is an opaque reference; it is modelled by a value of the
    abstract type [Tag]. *)

Definition SENDER_QUEUE_SIZE : Z := 50.

Module MessageQueue.

Section Template.
Context {Tag : Type}.

Record Message : Type := mkMessage {
  data : list byte;
  len : Z;                      (* uint8_t *)
  tag : Tag
}.

Record t : Type := mk {
  buf : MessageBuffer.t;
  tags : list Tag;              (* etl::queue<Tag*, SENDER_QUEUE_SIZE> *)
  itemCount : Z;
  bytesCount : Z;
  peekedData : list byte;       (* char peekedData[MAX_LINE_LEN] *)
  peekedLen : Z;                (* uint8_t *)
  havePeekedData : bool
}.

Variable sbBYTES_TO_STORE_MESSAGE_LENGTH : Z.
Variables SIZE MAX_LINE_LEN : Z.

(** The constructor sets [itemCount] and [buf] only; as for [SizedQueue]
    the remaining members are those of zero-initialised storage. *)
Definition MessageQueue : t :=
  mk (MessageBuffer.xMessageBufferCreateStatic SIZE) [] 0 0
     (replicate (Z.to_nat MAX_LINE_LEN) x00) 0 false.

Definition clear (s : t) : t :=
  mk (MessageBuffer.xMessageBufferReset (buf s)) (tags s) 0 0
     (peekedData s) (peekedLen s) false.

Definition count (s : t) : Z := itemCount s.
Definition size (s : t) : Z := bytesCount s.
Definition available (s : t) : Z := size_t (SIZE - bytesCount s).
Definition isEmpty (s : t) : bool := itemCount s =? 0.

Definition canPush (s : t) (len : Z) : bool :=
  (size_t (len + 1) <? available s)
  && (EtlQueue.available SENDER_QUEUE_SIZE (tags s) >? 0).

Definition push (s : t) (msg : Message) : bool * t :=
  if EtlQueue.available SENDER_QUEUE_SIZE (tags s) =? 0 then (false, s) else
  let '(b, sent) :=
    MessageBuffer.xMessageBufferSend sbBYTES_TO_STORE_MESSAGE_LENGTH
      (buf s) (data msg) (len msg) in
  let t := negb (sent =? 0) in
  if negb t then
    (false, mk b (tags s) (itemCount s) (bytesCount s)
               (peekedData s) (peekedLen s) (havePeekedData s))
  else
    (true, mk b (EtlQueue.push SENDER_QUEUE_SIZE (tags s) (tag msg))
              (itemCount s) (bytesCount s)
              (peekedData s) (peekedLen s) (havePeekedData s)).

Definition loadFromBuffer (s : t) : t * bool :=
  let '(b, rx, r) :=
    MessageBuffer.xMessageBufferReceive (buf s) (peekedData s) MAX_LINE_LEN in
  let plen := uint8_t r in
  if plen =? 0 then
    (mk b (tags s) (itemCount s) (bytesCount s) rx plen (havePeekedData s),
     false)
  else
    (mk b (tags s) (itemCount s) (bytesCount s) rx plen true, true).

(** The message handed back by [peek]: [data] aliases [peekedData];
    [tags.front()] is read behind the emptiness test of [itemCount]. *)
Definition peek (s : t) : bool * t * option (list byte * Z * option Tag) :=
  if itemCount s =? 0 then (false, s, None) else
  let s := if havePeekedData s then s else fst (loadFromBuffer s) in
  (true, s, Some (peekedData s, peekedLen s, EtlQueue.front (tags s))).

Definition pop (s : t) : bool * t :=
  if itemCount s =? 0 then (false, s) else
  let s := if havePeekedData s then s else fst (loadFromBuffer s) in
  (true,
   mk (buf s) (EtlQueue.pop (tags s))
      (size_t (itemCount s - 1))
      (size_t (bytesCount s - peekedLen s))
      (peekedData s) (peekedLen s) false).
End Template.

Arguments Message : clear implicits.
Arguments t : clear implicits.

(** The calls of a client and the states they lead to. *)
Inductive op (Tag : Type) : Type :=
| Clear
| Push (msg : Message Tag)
| Peek
| Pop.
Arguments Clear {Tag}.
Arguments Push {Tag} msg.
Arguments Peek {Tag}.
Arguments Pop {Tag}.

Section Runs.
Context {Tag : Type}.
Variable sbBYTES_TO_STORE_MESSAGE_LENGTH : Z.
Variables SIZE MAX_LINE_LEN : Z.

Definition valid_op (o : op Tag) : Prop :=
  match o with
  | Push msg => 0 <= len msg < 2 ^ 8 /\ len msg <= Z.of_nat (length (data msg))
  | _ => True
  end.

Definition step (s : t Tag) (o : op Tag) : t Tag :=
  match o with
  | Clear => clear s
  | Push msg => snd (push sbBYTES_TO_STORE_MESSAGE_LENGTH s msg)
  | Peek => snd (fst (peek MAX_LINE_LEN s))
  | Pop => snd (pop MAX_LINE_LEN s)
  end.

Definition run (s : t Tag) (ops : list (op Tag)) : t Tag :=
  fold_left step ops s.

Definition reachable (s : t Tag) : Prop :=
  exists ops, Forall valid_op ops /\ run (MessageQueue SIZE MAX_LINE_LEN) ops = s.
End Runs.

End MessageQueue.

(** ** Runs of a Counter

    The calls a client can make, and the states they lead to from the
    constructor.  A [Push] passes a pointer to at least [len] readable bytes
    and a [size_t] length. *)

Inductive op : Type :=
| Clear
| Push (msg : list byte) (len : Z)
| Peek
| Pop.

Definition valid_op (o : op) : Prop :=
  match o with
  | Push msg len => 0 <= len < 2 ^ 32 /\ len <= Z.of_nat (length msg)
  | _ => True
  end.

Section Runs.
Context {St : Type} (C : Counter St).

Definition step (s : St) (o : op) : option St :=
  match o with
  | Clear => Some (clear C s)
  | Push msg len =>
      match push C s msg len with
      | Some (_, s') => Some s'
      | None => None
      end
  | Peek => Some (fst (fst (peek C s)))
  | Pop => Some (pop C s)
  end.

Fixpoint run (s : St) (ops : list op) : option St :=
  match ops with
  | [] => Some s
  | o :: ops =>
      match step s o with
      | Some s' => run s' ops
      | None => None
      end
  end.

Definition reachable (s : St) : Prop :=
  exists ops, Forall valid_op ops /\ run (init C) ops = Some s.
End Runs.

(** * main.cpp: the pendant's polling loop

    The parts of [main.cpp] that compute: the names of the jog axes and
    distances, the encoder interrupt, the jog command built by
    [processEnc], the axis selection of [processPot] and the line assembly
    of [receiveResponses].  Pin reads and serial input are arguments; calls
    into [CommandQueue<>], a class the repository does not hold, are
    results.

    [int] is the 32-bit two's complement integer of the ESP32, [int8_t] its
    8-bit sibling; conversions and arithmetic wrap. *)

Definition int (z : Z) : Z := (z + 2 ^ 31) mod 2 ^ 32 - 2 ^ 31.
Definition int8_t (z : Z) : Z := (z + 2 ^ 7) mod 2 ^ 8 - 2 ^ 7.

Module Main.
Import Ascii String.

(** Arduino pin levels. *)
Definition HIGH : Z := 1.
Definition LOW : Z := 0.

Module JogAxis.
Inductive t : Type := X | Y | Z.
End JogAxis.

Module JogDist.
Inductive t : Type := _001 | _01 | _1.
End JogDist.

(** The [switch] covers the three enumerators; the fall-through that logs
    and returns the empty string is not reached from them. *)
Definition axisStr (a : JogAxis.t) : string :=
  match a with
  | JogAxis.X => "X"
  | JogAxis.Y => "Y"
  | JogAxis.Z => "Z"
  end%string.

Definition distStr (a : JogDist.t) : string :=
  match a with
  | JogDist._001 => "0.01"
  | JogDist._01 => "0.1"
  | JogDist._1 => "1"
  end%string.

(** [encISR]: the global [encVal] and the function's static [last1];
    [v1] and [v2] are the levels read from the two encoder pins. *)
Record Encoder : Type := mkEncoder {
  encVal : Z;
  last1 : Z
}.

Definition encISR (e : Encoder) (v1 v2 : Z) : Encoder :=
  let ev := encVal e in
  let ev :=
    if (v1 =? HIGH) && (last1 e =? LOW)
    then (if v2 =? HIGH then int (ev + 1) else int (ev - 1))
    else ev in
  let ev :=
    if (v1 =? LOW) && (last1 e =? HIGH)
    then (if v2 =? LOW then int (ev + 1) else int (ev - 1))
    else ev in
  mkEncoder ev v1.

(** [processEnc]: [lastEnc] is the function's static; the result holds the
    argument of [commandQueue.push], if the call is made, and the new
    [lastEnc]. *)
Definition processEnc (encVal lastEnc : Z) (cAxis : JogAxis.t) (cDist : JogDist.t)
  : option string * Z :=
  let pushed :=
    if negb (encVal =? lastEnc) then
      let dx := int8_t (int (encVal - lastEnc)) in
      Some ((("$J=G91 F100 " ++ axisStr cAxis)
             ++ (if dx >? 0 then "" else "-"))
            ++ distStr cDist)%string
    else None in
  (pushed, encVal).

(** [processPot]: [v] is the reading of the potentiometer. *)
Definition JogAxis_eqb (a b : JogAxis.t) : bool :=
  match a, b with
  | JogAxis.X, JogAxis.X | JogAxis.Y, JogAxis.Y | JogAxis.Z, JogAxis.Z => true
  | _, _ => false
  end.

Definition processPot (cAxis : JogAxis.t) (v : Z) : JogAxis.t :=
  let cAxis :=
    if JogAxis_eqb cAxis JogAxis.X && (v >? 3000 + 100)
    then JogAxis.Y else cAxis in
  let cAxis :=
    if JogAxis_eqb cAxis JogAxis.Y && (v >? 3700 + 100)
    then JogAxis.Z else cAxis in
  let cAxis :=
    if JogAxis_eqb cAxis JogAxis.Z && (v <? 3700 - 100)
    then JogAxis.Y else cAxis in
  let cAxis :=
    if JogAxis_eqb cAxis JogAxis.Y && (v <? 3000 - 100)
    then JogAxis.X else cAxis in
  cAxis.

(** [receiveResponses].

    Modelled from the spec: the Arduino [String] (a sequence of characters;
    [+=] appends a character, [startsWith(p)] and [startsWith(p, 0)] tell
    whether [p] is a prefix) and the acknowledgment calls of
    [CommandQueue<>], which are not part of the repository: a line that
    begins with ok and a line that begins with error each trigger one
    [popAcknowledge].

    [serialResponse] is the function's static line buffer, [lineStartPos]
    its static offset, which is 0 and never assigned.  [input] holds the
    characters [PrinterSerial] hands out while the loop runs; the result
    holds the buffer after the call and the acknowledgments popped, oldest
    first. *)
Inductive Ack : Type := AckOk | AckError.

Definition newline : ascii := "010"%char.

Fixpoint receiveResponses (serialResponse : string) (input : list ascii)
  : string * list Ack :=
  match input with
  | [] => (serialResponse, [])
  | ch :: input =>
      if negb (Ascii.eqb ch newline) then
        receiveResponses (serialResponse ++ String ch EmptyString)%string input
      else
        let popped :=
          if prefix "ok" serialResponse then [AckOk]
          else if prefix "error" serialResponse then [AckError]
          else [] in
        let '(s, acks) := receiveResponses serialResponse input in
        (s, popped ++ acks)
  end.

End Main.

(** * Specification-level definitions *)

(** ** SizedQueue: buffered contents and the accounting invariant *)

Module SizedQueueSpec.
Import SizedQueue.

(** The record held by the peek cache, if any. *)
Definition cached (s : t) : list (list byte) :=
  if havePeekedLine s
  then [take (Z.to_nat (peekedLineLen s)) (peekedLine s)]
  else [].

(** The records buffered by the queue, oldest first: the peek cache, then
    the message buffer. *)
Definition contents (s : t) : list (list byte) :=
  cached s ++ MessageBuffer.messages (buf s).

(** What a record costs in the byte budget: its length and one byte. *)
Definition charge (m : list byte) : Z := Z.of_nat (length m) + 1.

Definition charged (l : list (list byte)) : Z :=
  fold_right (fun m acc => charge m + acc) 0 l.

Record inv (LEN_LINES LEN_BYTES MAX_LINE_LEN : Z) (s : t) : Prop := mk_inv {
  inv_lines : freeLines s + Z.of_nat (length (contents s)) = LEN_LINES;
  inv_bytes : freeBytes s + charged (contents s) = LEN_BYTES;
  inv_freeLines : 0 <= freeLines s;
  inv_freeBytes : 0 <= freeBytes s;
  inv_records :
    Forall (fun m => 0 < Z.of_nat (length m) <= MAX_LINE_LEN)
           (MessageBuffer.messages (buf s));
  inv_cache :
    if havePeekedLine s
    then 0 < peekedLineLen s <= MAX_LINE_LEN
    else peekedLineLen s = 0;
  inv_line : Z.of_nat (length (peekedLine s)) = MAX_LINE_LEN + 1;
  inv_store : MessageBuffer.xLength (buf s) = LEN_BYTES
}.

(** Draining: a client that only peeks and pops. *)
Inductive drain_op : Type := DPeek | DPop.

Definition is_pop (o : drain_op) : bool :=
  match o with DPop => true | DPeek => false end.

(** What a [pop] taking [s] to [s'] released: the refund to [freeBytes]
    and the record it left at the start of the line buffer. *)
Definition released (s s' : t) : Z * list byte :=
  let refund := freeBytes s' - freeBytes s in
  (refund, take (Z.to_nat (refund - 1)) (peekedLine s')).

Section Template.
Variables LEN_LINES MAX_LINE_LEN : Z.

(** The length [canPush] and [push] go on with. *)
Definition truncated (len : Z) : Z :=
  if len >? MAX_LINE_LEN then MAX_LINE_LEN else len.

(** Runs the calls and collects what the pops of a non-empty queue
    released, in order. *)
Fixpoint drain (s : t) (ops : list drain_op) : t * list (Z * list byte) :=
  match ops with
  | [] => (s, [])
  | DPeek :: ops => drain (fst (fst (peek LEN_LINES MAX_LINE_LEN s))) ops
  | DPop :: ops =>
      let s' := pop LEN_LINES MAX_LINE_LEN s in
      let '(sf, tr) := drain s' ops in
      if size LEN_LINES s =? 0 then (sf, tr) else (sf, released s s' :: tr)
  end.
End Template.
End SizedQueueSpec.

(** ** SimpleCounter: the accounting invariant *)

Module SimpleCounterSpec.
Import SimpleCounter.

Section Template.
Variables LEN_LINES LEN_BYTES SUFFIX_LEN : Z.

(** What a queued length costs: [len + SUFFIX_LEN] as the source computes
    it, in [size_t]. *)
Definition charge (v : Z) : Z := size_t (v + SUFFIX_LEN).

Definition charged (q : list Z) : Z :=
  fold_right (fun v acc => charge v + acc) 0 q.

Record inv (s : t) : Prop := mk_inv {
  inv_lines : Z.of_nat (length (queue s)) <= LEN_LINES;
  inv_bytes : freeBytes s + charged (queue s) = LEN_BYTES;
  inv_freeBytes : 0 <= freeBytes s
}.
End Template.
End SimpleCounterSpec.

(** ** The counter bounds of a Counter *)

Definition counters_in_range {St : Type} (C : Counter St)
  (LEN_LINES LEN_BYTES : Z) (s : St) : Prop :=
  0 <= getFreeLines C s <= LEN_LINES /\
  0 <= getFreeBytes C s <= LEN_BYTES /\
  size C s = LEN_LINES - getFreeLines C s.

(** ** Sample configurations

    [SizedQueue<3, 32, 8>] over a store with 4-byte length fields and
    [SimpleCounter<3, 32, 1>], after two pushes (the records AB and C) and
    after a third (the record D), which fills the three lines. *)

Module Samples.
Definition sizedC : Counter SizedQueue.t := SizedQueue_Counter 4 3 32 8.
Definition simpleC : Counter SimpleCounter.t := SimpleCounter_Counter 3 32 1.

Definition pushes : list op := [Push [x41; x42] 2; Push [x43] 1].
Definition fill : list op := pushes ++ [Push [x44] 1].

Definition sized : SizedQueue.t :=
  Eval vm_compute in default (init sizedC) (run sizedC (init sizedC) pushes).
Definition sized_full : SizedQueue.t :=
  Eval vm_compute in default (init sizedC) (run sizedC (init sizedC) fill).

Definition simple : SimpleCounter.t :=
  Eval vm_compute in default (init simpleC) (run simpleC (init simpleC) pushes).
Definition simple_full : SimpleCounter.t :=
  Eval vm_compute in default (init simpleC) (run simpleC (init simpleC) fill).
End Samples.

(** ** Producers and consumers of a Counter *)

Section Clients.
Context {St : Type} (C : Counter St).

(** A producer that pushes the records one after the other and gives up at
    the first push that is rejected or aborts. *)
Fixpoint push_all (s : St) (records : list (list byte * Z)) : option St :=
  match records with
  | [] => Some s
  | (msg, len) :: records =>
      match push C s msg len with
      | Some (true, s') => push_all s' records
      | _ => None
      end
  end.

(** A consumer that [n] times peeks, notes the length and the bytes it was
    handed, and pops. *)
Fixpoint consume (n : nat) (s : St) : St * list (Z * option (list byte)) :=
  match n with
  | O => (s, [])
  | S n =>
      let '(s1, len, msg) := peek C s in
      let seen := (len, option_map (take (Z.to_nat len)) msg) in
      let '(sf, tr) := consume n (pop C s1) in
      (sf, seen :: tr)
  end.
End Clients.

(** The record [SizedQueue::push] stores for [(msg, len)]. *)
Definition stored (MAX_LINE_LEN : Z) (r : list byte * Z) : list byte :=
  take (Z.to_nat (SizedQueueSpec.truncated MAX_LINE_LEN (snd r))) (fst r).

Definition valid_record (r : list byte * Z) : Prop :=
  0 <= snd r < 2 ^ 32 /\ snd r <= Z.of_nat (length (fst r)).

(** The line handed out by [peek] ends in a NUL at the record's length. *)
Definition terminated (s : SizedQueue.t) : Prop :=
  SizedQueue.havePeekedLine s = true ->
  SizedQueue.peekedLine s !! Z.to_nat (SizedQueue.peekedLineLen s) = Some x00.

(** * Properties *)

(** ** Machine arithmetic *)

Lemma size_t_small (z : Z) : 0 <= z < 2 ^ 32 -> size_t z = z.
Proof. intros H. unfold size_t. now apply Z.mod_small. Qed.

Lemma size_t_range (z : Z) : 0 <= size_t z < 2 ^ 32.
Proof. unfold size_t. apply Z.mod_pos_bound. lia. Qed.

(** ** Runs *)

Section RunFacts.
Context {St : Type} (C : Counter St).

(** Invariance principle: a property of the constructed state that every
    valid call preserves holds in every reachable state. *)
Lemma reachable_invariant (P : St -> Prop) :
  P (init C) ->
  (forall s o s', P s -> valid_op o -> step C s o = Some s' -> P s') ->
  forall s, reachable C s -> P s.
Proof.
  intros Hinit Hstep s (ops & Hvalid & Hrun).
  revert Hrun. generalize (init C) Hinit. clear Hinit.
  induction Hvalid as [|o ops Ho Hops IH]; intros s0 Hs0 Hrun; simpl in Hrun.
  - congruence.
  - destruct (step C s0 o) as [s1|] eqn:E; [|discriminate].
    eapply IH; [|exact Hrun]. eapply Hstep; eauto.
Qed.

Lemma reachable_init : reachable C (init C).
Proof. exists []. split; [constructor|reflexivity]. Qed.
End RunFacts.

(** ** SizedQueue: the accounting invariant *)

Module SizedQueueFacts.
Import SizedQueue SizedQueueSpec.

Lemma charged_app (l1 l2 : list (list byte)) :
  charged (l1 ++ l2) = charged l1 + charged l2.
Proof. induction l1 as [|m l1 IH]; simpl; [reflexivity|]. rewrite IH. lia. Qed.

Lemma charged_nonneg (l : list (list byte)) : 0 <= charged l.
Proof. induction l as [|m l IH]; simpl; unfold charge in *; lia. Qed.

Lemma charged_length (l : list (list byte)) : Z.of_nat (length l) <= charged l.
Proof.
  induction l as [|m l IH]; simpl length; simpl charged; unfold charge in *; lia.
Qed.

Section Template.
(** The template arguments, with the ranges of their types
    ([uint16_t], [uint16_t], [uint8_t]). *)
Variable sbBYTES_TO_STORE_MESSAGE_LENGTH : Z.
Variables LEN_LINES LEN_BYTES MAX_LINE_LEN : Z.
Hypothesis LEN_LINES_range : 0 <= LEN_LINES < 2 ^ 16.
Hypothesis LEN_BYTES_range : 0 <= LEN_BYTES < 2 ^ 16.
Hypothesis MAX_LINE_LEN_range : 0 <= MAX_LINE_LEN < 2 ^ 8.

Local Abbreviation inv := (inv LEN_LINES LEN_BYTES MAX_LINE_LEN).
Local Abbreviation SizedQueue := (SizedQueue LEN_LINES LEN_BYTES MAX_LINE_LEN).
Local Abbreviation clear := (clear LEN_LINES LEN_BYTES).
Local Abbreviation canPush := (canPush MAX_LINE_LEN).
Local Abbreviation push := (push sbBYTES_TO_STORE_MESSAGE_LENGTH MAX_LINE_LEN).
Local Abbreviation size := (size LEN_LINES).
Local Abbreviation peek := (peek LEN_LINES MAX_LINE_LEN).
Local Abbreviation pop := (pop LEN_LINES MAX_LINE_LEN).
Local Abbreviation drain := (drain LEN_LINES MAX_LINE_LEN).
Local Abbreviation truncated := (truncated MAX_LINE_LEN).
Local Abbreviation C :=
  (SizedQueue_Counter sbBYTES_TO_STORE_MESSAGE_LENGTH
     LEN_LINES LEN_BYTES MAX_LINE_LEN).

Lemma truncated_min (len : Z) : truncated len = Z.min len MAX_LINE_LEN.
Proof.
  unfold truncated. rewrite Z.gtb_ltb.
  destruct (Z.ltb_spec MAX_LINE_LEN len); lia.
Qed.

Lemma inv_bounds (s : t) :
  inv s ->
  0 <= freeLines s <= LEN_LINES /\ 0 <= freeBytes s <= LEN_BYTES.
Proof.
  intros [Hl Hb Hfl Hfb _ _ _ _].
  pose proof (charged_nonneg (contents s)). lia.
Qed.

Lemma size_inv (s : t) :
  inv s -> size s = Z.of_nat (length (contents s)).
Proof.
  intros Hinv. pose proof (inv_bounds s Hinv) as [? ?].
  destruct Hinv as [Hl _ _ _ _ _ _ _].
  unfold SizedQueue.size. rewrite size_t_small; lia.
Qed.

Lemma init_inv : inv SizedQueue.
Proof.
  constructor; simpl; try lia.
  - constructor.
  - rewrite length_replicate. lia.
Qed.

Lemma clear_inv (s : t) : inv s -> inv (clear s).
Proof.
  intros [_ _ _ _ _ _ Hline Hstore].
  constructor; simpl; try lia; try exact Hline; try exact Hstore; constructor.
Qed.

(** A successful [push] appends the truncated record and charges it. *)
Lemma push_true (s : t) (msg : list byte) (len : Z) (s' : t) :
  inv s -> 0 <= len < 2 ^ 32 -> len <= Z.of_nat (length msg) ->
  push s msg len = Some (true, s') ->
  let m := take (Z.to_nat (truncated len)) msg in
  Z.of_nat (length m) = truncated len /\
  contents s' = contents s ++ [m] /\
  MessageBuffer.messages (buf s')
  = MessageBuffer.messages (buf s) ++ [m] /\
  freeLines s' = freeLines s - 1 /\
  freeBytes s' = freeBytes s - charge m /\
  1 <= freeBytes s' /\
  peekedLine s' = peekedLine s /\
  inv s'.
Proof.
  intros Hinv Hlen Hmsg Hpush m.
  pose proof (inv_bounds s Hinv) as [Hfl Hfb].
  pose proof (truncated_min len) as Htr.
  unfold SizedQueue.push, SizedQueue.canPush in Hpush.
  fold (truncated len) in Hpush.
  rewrite (size_t_small (truncated len + 1)) in Hpush by lia.
  rewrite !Z.gtb_ltb in Hpush.
  destruct (Z.ltb_spec (truncated len + 1) (freeBytes s)) as [Hb|Hb];
    [|discriminate].
  destruct (Z.ltb_spec 0 (freeLines s)) as [Hl|Hl]; [|discriminate].
  simpl in Hpush.
  unfold MessageBuffer.xMessageBufferSend in Hpush.
  destruct (Z.ltb_spec 0 (truncated len)) as [Hpos|Hpos];
    [|simpl in Hpush; discriminate].
  destruct (_ <=? _); simpl in Hpush.
  2: discriminate.
  destruct (Z.eqb_spec (truncated len) 0) as [?|_]; [lia|].
  injection Hpush as <-.
  assert (Hm : Z.of_nat (length m) = truncated len).
  { subst m. rewrite length_take. lia. }
  rewrite !size_t_small by lia.
  assert (Hc : contents
                 (mk (MessageBuffer.mk (MessageBuffer.xLength (buf s))
                        (MessageBuffer.messages (buf s) ++ [m]))
                     (freeLines s - 1) (freeBytes s - (truncated len + 1))
                     (peekedLine s) (peekedLineLen s) (havePeekedLine s))
               = contents s ++ [m]).
  { unfold contents, cached. simpl. now rewrite app_assoc. }
  fold m.
  split; [exact Hm|].
  split; [exact Hc|].
  split; [reflexivity|].
  split; [reflexivity|].
  split; [simpl; unfold charge; lia|].
  split; [simpl; lia|].
  split; [reflexivity|].
  destruct Hinv as [H1 H2 H3 H4 H5 H6 H7 H8].
  constructor; rewrite ?Hc; simpl; try lia; try assumption.
  - rewrite length_app. simpl. lia.
  - rewrite charged_app. simpl. unfold charge. lia.
  - apply Forall_app; split; [assumption|]. repeat constructor; lia.
Qed.

Lemma push_inv (s : t) (msg : list byte) (len : Z) (r : bool) (s' : t) :
  inv s -> 0 <= len < 2 ^ 32 -> len <= Z.of_nat (length msg) ->
  push s msg len = Some (r, s') -> inv s'.
Proof.
  intros Hinv Hlen Hmsg Hpush. destruct r.
  - now apply (push_true s msg len s').
  - unfold SizedQueue.push in Hpush.
    destruct (negb _); [congruence|].
    destruct (MessageBuffer.xMessageBufferSend _ _ _ _).
    destruct (_ =? 0); discriminate.
Qed.

Lemma size_zero_iff (s : t) : inv s -> size s = 0 <-> contents s = [].
Proof.
  intros Hinv. rewrite (size_inv s Hinv).
  destruct (contents s); simpl; split; intros; (congruence || lia).
Qed.

(** [peek] loads the oldest record into the cache when it has to; the
    buffered contents and the counters are those before the call. *)
Lemma peek_spec (s : t) :
  inv s ->
  let s' := fst (fst (peek s)) in
  inv s' /\
  contents s' = contents s /\
  freeLines s' = freeLines s /\
  freeBytes s' = freeBytes s /\
  match contents s with
  | [] => peek s = (s, 0, None)
  | m :: _ =>
      havePeekedLine s' = true /\
      peek s = (s', Z.of_nat (length m), Some (peekedLine s')) /\
      take (length m) (peekedLine s') = m
  end.
Proof.
  intros Hinv. pose proof (size_zero_iff s Hinv) as Hz.
  pose proof Hinv as [H1 H2 H3 H4 H5 H6 H7 H8].
  unfold SizedQueue.peek. cbv zeta.
  destruct (Z.eqb_spec (size s) 0) as [E|E].
  { apply Hz in E. rewrite E. simpl. auto. }
  assert (Hne : contents s <> []) by (intros E'; apply E, Hz, E').
  unfold contents, cached in *.
  destruct (havePeekedLine s) eqn:Hhave; simpl in Hne; simpl.
  - rewrite Hhave. simpl.
    assert (Hlen : length (take (Z.to_nat (peekedLineLen s)) (peekedLine s))
                   = Z.to_nat (peekedLineLen s)).
    { rewrite length_take. lia. }
    rewrite Hlen, Z2Nat.id by lia. auto 10.
  - destruct (MessageBuffer.messages (buf s)) as [|m rest] eqn:Hmsgs;
      [congruence|].
    inversion H5 as [|? ? Hm Hrest]; subst.
    unfold loadLineFromBuf, MessageBuffer.xMessageBufferReceive.
    rewrite Hmsgs.
    destruct (Z.leb_spec (Z.of_nat (length m)) MAX_LINE_LEN) as [_|?]; [|lia].
    rewrite Z.gtb_ltb.
    destruct (Z.ltb_spec 0 (Z.of_nat (length m))) as [_|?]; [|lia].
    simpl. rewrite Nat2Z.id.
    assert (Htake : take (length m)
                    (<[length m := x00]> (m ++ drop (length m) (peekedLine s)))
                  = m).
    { rewrite take_insert_ge by lia. now rewrite take_app_length. }
    rewrite Htake.
    split; [|auto 10].
    constructor; unfold contents, cached; simpl; rewrite ?Nat2Z.id, ?Htake;
      try assumption; try lia.
    rewrite length_insert, length_app, length_drop. lia.
Qed.

(** [pop] removes the oldest record, whether it is cached or not, and
    refunds its charge. *)
Lemma pop_spec (s : t) :
  inv s ->
  match contents s with
  | [] => pop s = s
  | m :: rest =>
      size s <> 0 /\
      contents (pop s) = rest /\
      freeLines (pop s) = freeLines s + 1 /\
      freeBytes (pop s) = freeBytes s + charge m /\
      released s (pop s) = (charge m, m) /\
      inv (pop s)
  end.
Proof.
  intros Hinv. pose proof (size_zero_iff s Hinv) as Hz.
  pose proof (inv_bounds s Hinv) as [Hfl Hfb].
  pose proof Hinv as [H1 H2 H3 H4 H5 H6 H7 H8].
  unfold SizedQueue.pop, released. cbv zeta.
  destruct (Z.eqb_spec (size s) 0) as [E|E].
  { apply Hz in E. now rewrite E. }
  assert (Hne : contents s <> []) by (intros E'; apply E, Hz, E').
  pose proof (charged_nonneg (contents s)) as Hch.
  pose proof (charged_length (contents s)) as Hcl.
  unfold contents, cached in *.
  destruct (havePeekedLine s) eqn:Hhave; simpl in *.
  - assert (Hlen : length (take (Z.to_nat (peekedLineLen s)) (peekedLine s))
                   = Z.to_nat (peekedLineLen s)).
    { rewrite length_take. lia. }
    unfold charge in *. rewrite Hlen, Z2Nat.id in * by lia.
    pose proof (charged_nonneg (MessageBuffer.messages (buf s))).
    rewrite (size_t_small (peekedLineLen s + 1)) by lia.
    rewrite !size_t_small by lia.
    split; [exact E|]. split; [reflexivity|]. split; [reflexivity|].
    split; [reflexivity|].
    split.
    { f_equal; [lia|]. f_equal. lia. }
    constructor; unfold contents, cached; simpl; try assumption; lia.
  - destruct (MessageBuffer.messages (buf s)) as [|m rest] eqn:Hmsgs;
      [congruence|].
    inversion H5 as [|? ? Hm Hrest]; subst.
    unfold MessageBuffer.xMessageBufferReceive. rewrite Hmsgs.
    destruct (Z.leb_spec (Z.of_nat (length m)) MAX_LINE_LEN) as [_|?]; [|lia].
    simpl in *. unfold charge in *.
    pose proof (charged_nonneg rest).
    rewrite (size_t_small (Z.of_nat (length m) + 1)) by lia.
    rewrite !size_t_small by lia. rewrite ?Hhave. simpl.
    split; [exact E|]. split; [reflexivity|]. split; [reflexivity|].
    split; [reflexivity|].
    split.
    { f_equal; [lia|].
      replace (Z.to_nat _) with (length m) by lia.
      now rewrite take_app_length. }
    constructor; unfold contents, cached; simpl; rewrite ?Hhave; simpl;
      try assumption; try lia.
    rewrite length_app, length_drop. lia.
Qed.

Lemma peek_cached (s : t) :
  havePeekedLine s = true -> fst (fst (peek s)) = s.
Proof.
  intros Hhave. unfold SizedQueue.peek.
  destruct (size s =? 0); [reflexivity|]. now rewrite Hhave.
Qed.

Lemma step_inv (s : t) (o : op) (s' : t) :
  inv s -> valid_op o -> step C s o = Some s' -> inv s'.
Proof.
  intros Hinv Hvalid Hstep. destruct o as [|msg len| |]; simpl in *.
  - injection Hstep as <-. now apply clear_inv.
  - destruct (push s msg len) as [[r s1]|] eqn:Hpush; [|discriminate].
    injection Hstep as <-. destruct Hvalid.
    now apply (push_inv s msg len r s1).
  - injection Hstep as <-. apply (peek_spec s Hinv).
  - injection Hstep as <-. pose proof (pop_spec s Hinv) as Hpop.
    destruct (contents s); [now rewrite Hpop|apply Hpop].
Qed.

Lemma reachable_inv (s : t) : reachable C s -> inv s.
Proof.
  apply (reachable_invariant C inv); [exact init_inv|exact step_inv].
Qed.

(** The byte budget is never used up: admission is strict. *)
Lemma reachable_freeBytes_pos (s : t) :
  0 < LEN_BYTES -> reachable C s -> 1 <= freeBytes s.
Proof.
  intros Hpos Hreach.
  enough (inv s /\ 1 <= freeBytes s) as [_ H] by exact H.
  revert s Hreach. apply (reachable_invariant C).
  - split; [exact init_inv|simpl; lia].
  - intros s o s' [Hinv Hfb] Hvalid Hstep.
    split; [now apply (step_inv s o s')|].
    destruct o as [|msg len| |]; simpl in *.
    + injection Hstep as <-. simpl. lia.
    + destruct (push s msg len) as [[r s1]|] eqn:Hpush; [|discriminate].
      injection Hstep as <-. destruct Hvalid. destruct r.
      * now apply (push_true s msg len s1).
      * unfold SizedQueue.push in Hpush.
        destruct (negb _); [congruence|].
        destruct (MessageBuffer.xMessageBufferSend _ _ _ _).
        destruct (_ =? 0); discriminate.
    + injection Hstep as <-.
      destruct (peek_spec s Hinv) as (_ & _ & _ & -> & _). exact Hfb.
    + injection Hstep as <-. pose proof (pop_spec s Hinv) as Hpop.
      destruct (contents s) as [|m rest]; [now rewrite Hpop|].
      destruct Hpop as (_ & _ & _ & -> & _). unfold charge. lia.
Qed.

(** What a run of peeks and pops releases depends on the number of its
    pops only. *)
Lemma drain_spec (ops : list drain_op) : forall s : t,
  inv s ->
  let n := length (List.filter is_pop ops) in
  let r := drain s ops in
  snd r = map (fun m => (charge m, m)) (take n (contents s)) /\
  contents (fst r) = drop n (contents s) /\
  freeLines (fst r) = freeLines s + Z.of_nat (length (take n (contents s))) /\
  freeBytes (fst r) = freeBytes s + charged (take n (contents s)) /\
  inv (fst r).
Proof.
  induction ops as [|o ops IH]; intros s Hinv.
  - simpl. repeat apply conj; try reflexivity; try lia; assumption.
  - destruct o.
    + destruct (peek_spec s Hinv) as (Hinv' & Hc & Hl & Hb & _).
      specialize (IH _ Hinv'). cbv zeta in IH.
      rewrite Hc, Hl, Hb in IH. exact IH.
    + pose proof (pop_spec s Hinv) as Hpop.
      change (List.filter is_pop (DPop :: ops)) with (DPop :: List.filter is_pop ops).
      simpl length. simpl drain.
      destruct (contents s) as [|m rest] eqn:Hcont.
      * rewrite Hpop.
        assert (Hsz : size s = 0) by (apply size_zero_iff; assumption).
        rewrite Hsz. simpl.
        specialize (IH s Hinv). cbv zeta in IH. rewrite Hcont in IH.
        rewrite take_nil, drop_nil in IH.
        destruct (drain s ops) as [sf tr]. exact IH.
      * destruct Hpop as (Hsz & Hc & Hl & Hb & Hrel & Hinv').
        specialize (IH _ Hinv'). cbv zeta in IH. rewrite Hc, Hl, Hb in IH.
        destruct (drain (pop s) ops) as [sf tr].
        destruct (Z.eqb_spec (size s) 0) as [?|_]; [contradiction|].
        simpl in *. destruct IH as (-> & -> & -> & -> & Hinvf).
        rewrite Hrel. repeat apply conj; try reflexivity; try lia; assumption.
Qed.

(** A store that frames a record with at most the one byte the queue
    charges for it never uses more than the queue has charged. *)
Lemma bytesUsed_le_charged (b : MessageBuffer.t) :
  sbBYTES_TO_STORE_MESSAGE_LENGTH <= 1 ->
  MessageBuffer.bytesUsed sbBYTES_TO_STORE_MESSAGE_LENGTH b
  <= charged (MessageBuffer.messages b).
Proof.
  intros Hframe. unfold MessageBuffer.bytesUsed.
  induction (MessageBuffer.messages b) as [|m l IH]; simpl; [lia|].
  unfold charge. lia.
Qed.

(** With such a store the send behind a passed [canPush] succeeds for
    every record that is not empty. *)
Lemma push_send_succeeds (s : t) (msg : list byte) (len : Z) :
  sbBYTES_TO_STORE_MESSAGE_LENGTH <= 1 ->
  inv s -> 0 <= len < 2 ^ 32 ->
  canPush s len = true -> 0 < truncated len ->
  push s msg len <> None.
Proof.
  intros Hframe Hinv Hlen Hcan Hpos.
  pose proof (truncated_min len) as Htr.
  pose proof (bytesUsed_le_charged (buf s) Hframe) as Hused.
  pose proof Hinv as [H1 H2 H3 H4 H5 H6 H7 H8].
  unfold SizedQueue.push. rewrite Hcan. simpl.
  unfold SizedQueue.canPush in Hcan. fold (truncated len) in Hcan |- *.
  rewrite (size_t_small (truncated len + 1)) in Hcan by lia.
  apply andb_prop in Hcan as [Hb Hl].
  rewrite Z.gtb_ltb in Hb. apply Z.ltb_lt in Hb.
  unfold MessageBuffer.xMessageBufferSend, MessageBuffer.spacesAvailable.
  unfold contents in H2. rewrite charged_app in H2.
  pose proof (charged_nonneg (cached s)).
  destruct (Z.ltb_spec 0 (truncated len)) as [_|?]; [|lia].
  destruct (Z.leb_spec (truncated len + sbBYTES_TO_STORE_MESSAGE_LENGTH)
              (MessageBuffer.xLength (buf s) - 1
               - MessageBuffer.bytesUsed sbBYTES_TO_STORE_MESSAGE_LENGTH (buf s)))
    as [_|?]; [|lia].
  simpl. destruct (Z.eqb_spec (truncated len) 0); [lia|discriminate].
Qed.
End Template.
End SizedQueueFacts.

(** ** SimpleCounter: the accounting invariant *)

Module SimpleCounterFacts.
Import SimpleCounter SimpleCounterSpec.

Section Template.
(** The template arguments, with the ranges of their types
    ([uint16_t], [uint16_t], [uint8_t]). *)
Variables LEN_LINES LEN_BYTES SUFFIX_LEN : Z.
Hypothesis LEN_LINES_range : 0 <= LEN_LINES < 2 ^ 16.
Hypothesis LEN_BYTES_range : 0 <= LEN_BYTES < 2 ^ 16.
Hypothesis SUFFIX_LEN_range : 0 <= SUFFIX_LEN < 2 ^ 8.

Local Abbreviation inv := (inv LEN_LINES LEN_BYTES SUFFIX_LEN).
Local Abbreviation charge := (charge SUFFIX_LEN).
Local Abbreviation charged := (charged SUFFIX_LEN).
Local Abbreviation push := (push LEN_LINES SUFFIX_LEN).
Local Abbreviation pop := (pop SUFFIX_LEN).
Local Abbreviation C := (SimpleCounter_Counter LEN_LINES LEN_BYTES SUFFIX_LEN).

Lemma queue_charge_range (v : Z) : 0 <= charge v < 2 ^ 32.
Proof. apply size_t_range. Qed.

Lemma queue_charged_nonneg (q : list Z) : 0 <= charged q.
Proof.
  induction q as [|v q IH]; simpl; [lia|].
  pose proof (queue_charge_range v). lia.
Qed.

Lemma queue_charged_app (q1 q2 : list Z) :
  charged (q1 ++ q2) = charged q1 + charged q2.
Proof. induction q1 as [|v q1 IH]; simpl; [reflexivity|]. rewrite IH. lia. Qed.

Lemma counter_inv_bounds (s : t) :
  inv s ->
  0 <= getFreeLines LEN_LINES s <= LEN_LINES /\
  0 <= getFreeBytes s <= LEN_BYTES /\
  size s = LEN_LINES - getFreeLines LEN_LINES s.
Proof.
  intros [Hl Hb Hfb]. pose proof (queue_charged_nonneg (queue s)).
  unfold getFreeLines, getFreeBytes, size, EtlQueue.size.
  rewrite size_t_small; lia.
Qed.

Lemma counter_init_inv : inv (SimpleCounter LEN_BYTES).
Proof. constructor; simpl; lia. Qed.

Lemma counter_clear_inv (s : t) : inv (clear LEN_BYTES s).
Proof. constructor; simpl; lia. Qed.

(** A successful [push] queues the length as given and charges
    [len + SUFFIX_LEN], computed in [size_t]. *)
Lemma counter_push_true (s : t) (msg : list byte) (len : Z) (s' : t) :
  inv s -> push s msg len = Some (true, s') ->
  queue s' = queue s ++ [len] /\
  freeBytes s' = freeBytes s - charge len /\
  inv s'.
Proof.
  intros [Hl Hb Hfb] Hpush.
  unfold SimpleCounter.push, canPush in Hpush.
  fold (charge len) in Hpush. pose proof (queue_charge_range len) as Hc.
  unfold EtlQueue.push, EtlQueue.size in Hpush.
  destruct (Z.ltb_spec (Z.of_nat (length (queue s))) LEN_LINES) as [Hlt|?];
    [|discriminate].
  rewrite Z.geb_leb in Hpush.
  destruct (Z.leb_spec (charge len) (freeBytes s)) as [Hle|?];
    [|discriminate].
  simpl in Hpush. injection Hpush as <-. simpl.
  pose proof (queue_charged_nonneg (queue s)).
  rewrite size_t_small by lia.
  split; [reflexivity|]. split; [reflexivity|].
  constructor; simpl.
  - rewrite length_app. simpl. lia.
  - rewrite queue_charged_app. simpl. lia.
  - lia.
Qed.

Lemma counter_push_false (s : t) (msg : list byte) (len : Z) (s' : t) :
  push s msg len = Some (false, s') -> s' = s.
Proof.
  unfold SimpleCounter.push. destruct (negb _); congruence.
Qed.

Lemma counter_pop_inv (s : t) : inv s -> inv (pop s).
Proof.
  intros Hinv. pose proof Hinv as [Hl Hb Hfb].
  unfold SimpleCounter.pop, EtlQueue.size, EtlQueue.front, EtlQueue.pop.
  destruct (queue s) as [|v q] eqn:Hq; simpl in *; [exact Hinv|].
  fold (charge v). pose proof (queue_charge_range v).
  pose proof (queue_charged_nonneg q).
  rewrite size_t_small by lia.
  constructor; simpl; lia.
Qed.

Lemma counter_step_inv (s : t) (o : op) (s' : t) :
  inv s -> valid_op o -> step C s o = Some s' -> inv s'.
Proof.
  intros Hinv _ Hstep. destruct o as [|msg len| |]; simpl in *.
  - injection Hstep as <-. apply counter_clear_inv.
  - destruct (push s msg len) as [[[] s1]|] eqn:Hpush; [| |discriminate];
      injection Hstep as <-.
    + now apply (counter_push_true s msg len s1).
    + now rewrite (counter_push_false s msg len s1 Hpush).
  - injection Hstep as <-. unfold peek.
    destruct (_ =? 0); exact Hinv.
  - injection Hstep as <-. now apply counter_pop_inv.
Qed.

Lemma counter_reachable_inv (s : t) : reachable C s -> inv s.
Proof.
  apply (reachable_invariant C inv); [exact counter_init_inv|exact counter_step_inv].
Qed.
End Template.
End SimpleCounterFacts.

(** ** MessageQueue: the item count *)

Module MessageQueueFacts.
Import MessageQueue.

Section Template.
Context {Tag : Type}.
Variable sbBYTES_TO_STORE_MESSAGE_LENGTH : Z.
Variables SIZE MAX_LINE_LEN : Z.

Local Abbreviation step := (step (Tag:=Tag) sbBYTES_TO_STORE_MESSAGE_LENGTH MAX_LINE_LEN).
Local Abbreviation reachable :=
  (reachable (Tag:=Tag) sbBYTES_TO_STORE_MESSAGE_LENGTH SIZE MAX_LINE_LEN).

(** No call raises [itemCount]: [push] leaves it alone, [clear] resets it
    and [peek] and [pop] do nothing while it is zero. *)
Lemma step_itemCount (s : t Tag) (o : op Tag) :
  itemCount s = 0 -> itemCount (step s o) = 0.
Proof.
  intros Hz. destruct o as [|msg| |]; simpl.
  - reflexivity.
  - unfold push.
    destruct (_ =? 0); [exact Hz|].
    destruct (MessageBuffer.xMessageBufferSend _ _ _ _) as [b sent].
    destruct (negb (negb _)); exact Hz.
  - unfold peek. now rewrite Hz.
  - unfold pop. now rewrite Hz.
Qed.

Lemma reachable_itemCount (s : t Tag) : reachable s -> itemCount s = 0.
Proof.
  intros (ops & _ & <-). unfold run.
  assert (H : itemCount (MessageQueue (Tag:=Tag) SIZE MAX_LINE_LEN) = 0)
    by reflexivity.
  revert H. generalize (MessageQueue (Tag:=Tag) SIZE MAX_LINE_LEN).
  induction ops as [|o ops IH]; intros s0 H; simpl; [exact H|].
  apply IH. now apply step_itemCount.
Qed.

(** Hence [peek] and [pop] report an empty queue in every reachable
    state, whatever has been pushed. *)
Lemma reachable_peek_pop (s : t Tag) :
  reachable s ->
  peek MAX_LINE_LEN s = (false, s, None) /\ pop MAX_LINE_LEN s = (false, s).
Proof.
  intros Hreach. apply reachable_itemCount in Hreach.
  unfold peek, pop. now rewrite Hreach.
Qed.

(** [push] takes the record and the tag together or neither of them. *)
Lemma push_pairwise (s : t Tag) (msg : Message Tag) :
  0 < len msg -> EtlQueue.size (tags s) <= SENDER_QUEUE_SIZE ->
  let r := push sbBYTES_TO_STORE_MESSAGE_LENGTH s msg in
  let record := take (Z.to_nat (len msg)) (data msg) in
  if fst r
  then MessageBuffer.messages (buf (snd r))
       = MessageBuffer.messages (buf s) ++ [record] /\
       tags (snd r) = tags s ++ [tag msg]
  else MessageBuffer.messages (buf (snd r)) = MessageBuffer.messages (buf s) /\
       tags (snd r) = tags s.
Proof.
  intros Hlen Hcap. unfold push, EtlQueue.available, EtlQueue.push.
  destruct (Z.eqb_spec (SENDER_QUEUE_SIZE - EtlQueue.size (tags s)) 0)
    as [Hfull|Hroom]; simpl; [auto|].
  unfold MessageBuffer.xMessageBufferSend.
  destruct (Z.ltb_spec 0 (len msg)) as [_|?]; [|lia].
  destruct (_ <=? _); simpl.
  - destruct (Z.eqb_spec (len msg) 0) as [?|_]; [lia|]. simpl.
    split; [reflexivity|].
    destruct (Z.ltb_spec (EtlQueue.size (tags s)) SENDER_QUEUE_SIZE)
      as [_|Hge]; [reflexivity|].
    lia.
  - auto.
Qed.
End Template.
End MessageQueueFacts.

(** * The properties of the queue layer *)

Lemma Samples_pushes_valid : Forall valid_op Samples.pushes.
Proof. repeat constructor; simpl; lia. Qed.

Lemma Samples_fill_valid : Forall valid_op Samples.fill.
Proof. repeat constructor; simpl; lia. Qed.

Lemma Samples_sized_reachable : reachable Samples.sizedC Samples.sized.
Proof.
  exists Samples.pushes. split; [exact Samples_pushes_valid|reflexivity].
Qed.

Lemma Samples_sized_full_reachable : reachable Samples.sizedC Samples.sized_full.
Proof.
  exists Samples.fill. split; [exact Samples_fill_valid|reflexivity].
Qed.

Lemma Samples_simple_reachable : reachable Samples.simpleC Samples.simple.
Proof.
  exists Samples.pushes. split; [exact Samples_pushes_valid|reflexivity].
Qed.

Lemma Samples_simple_full_reachable :
  reachable Samples.simpleC Samples.simple_full.
Proof.
  exists Samples.fill. split; [exact Samples_fill_valid|reflexivity].
Qed.

(** C3, as stated, at [SimpleCounter<3, 10, 1>]: whatever line bound is
    taken for [MAX_LINE_LEN], [canPush] is not the strict test on the
    truncated length.  With a bound of 9 or more, the new queue admits 9
    bytes, whose charge equals the 10 free bytes; with a smaller bound it
    rejects 200 bytes, which the truncation would let in. *)
Lemma SimpleCounter_canPush_not_strict_not_truncated :
  ~ (exists MAX_LINE_LEN : Z,
        let C := SimpleCounter_Counter 3 10 1 in
        forall len : Z,
          0 <= len < 2 ^ 32 ->
          canPush C (init C) len = true
          <-> (0 < getFreeLines C (init C) /\
               Z.min len MAX_LINE_LEN + 1 < getFreeBytes C (init C))).
Proof.
  intros [m H]. cbv zeta in H. set (C := SimpleCounter_Counter 3 10 1) in *.
  assert (Hfree : getFreeBytes C (init C) = 10) by reflexivity.
  assert (Hlines : 0 < getFreeLines C (init C)) by reflexivity.
  destruct (Z.lt_ge_cases m 9) as [Hsmall|Hlarge].
  - assert (H200 : canPush C (init C) 200 = false) by reflexivity.
    specialize (H 200 ltac:(lia)). rewrite H200, Hfree in H.
    destruct H as [_ H]. discriminate H. split; [exact Hlines|lia].
  - assert (H9 : canPush C (init C) 9 = true) by reflexivity.
    specialize (H 9 ltac:(lia)). rewrite H9, Hfree in H.
    destruct H as [H _]. specialize (H eq_refl). lia.
Qed.

(** C3, amended.  [canPush] is a function of the state and the length and
    returns no state.  For [SizedQueue] it holds exactly when a line is free
    and the free bytes exceed [min(len, MAX_LINE_LEN) + 1]; for
    [SimpleCounter] exactly when the length queue is not full and the free
    bytes are at least [len + SUFFIX_LEN] (computed in [size_t]), the length
    being taken as given. *)
Theorem canPush_iff
  (LEN_LINES LEN_BYTES MAX_LINE_LEN SUFFIX_LEN frame : Z)
  (MAX_LINE_LEN_range : 0 <= MAX_LINE_LEN < 2 ^ 8) :
  (forall (s : SizedQueue.t) (len : Z),
      0 <= len < 2 ^ 32 ->
      canPush (SizedQueue_Counter frame LEN_LINES LEN_BYTES MAX_LINE_LEN) s len
      = true
      <-> 0 < SizedQueue.getFreeLines s /\
          Z.min len MAX_LINE_LEN + 1 < SizedQueue.getFreeBytes s)
  /\
  (forall (s : SimpleCounter.t) (len : Z),
      canPush (SimpleCounter_Counter LEN_LINES LEN_BYTES SUFFIX_LEN) s len
      = true
      <-> SimpleCounter.size s < LEN_LINES /\
          size_t (len + SUFFIX_LEN) <= SimpleCounter.getFreeBytes s).
Proof.
  split; intros s len.
  - intros Hlen. simpl. unfold SizedQueue.canPush.
    fold (SizedQueueSpec.truncated MAX_LINE_LEN len).
    rewrite (SizedQueueFacts.truncated_min MAX_LINE_LEN len).
    rewrite size_t_small by lia.
    unfold SizedQueue.getFreeLines, SizedQueue.getFreeBytes.
    rewrite andb_true_iff, !Z.gtb_ltb, !Z.ltb_lt. tauto.
  - simpl. unfold SimpleCounter.canPush, SimpleCounter.size.
    unfold SimpleCounter.getFreeBytes.
    rewrite andb_true_iff, Z.geb_leb, Z.ltb_lt, Z.leb_le. tauto.
Qed.

Lemma canPush_iff_witness :
  (0 <= 8 < 2 ^ 8 /\ 0 <= 200 < 2 ^ 32) /\
  (canPush Samples.sizedC Samples.sized 200 = true
   <-> 0 < SizedQueue.getFreeLines Samples.sized /\
       Z.min 200 8 + 1 < SizedQueue.getFreeBytes Samples.sized).
Proof.
  split; [lia|].
  apply (proj1 (canPush_iff 3 32 8 1 4 ltac:(lia))). lia.
Defined.

(** C4.  In every state reachable from the constructor by [clear], [push],
    [peek] and [pop], for both implementations of [Counter]:
    [0 <= freeLines <= LEN_LINES], [0 <= freeBytes <= LEN_BYTES] and
    [size() = LEN_LINES - freeLines]. *)
Theorem reachable_counters_in_range
  (LEN_LINES LEN_BYTES MAX_LINE_LEN SUFFIX_LEN frame : Z)
  (LEN_LINES_range : 0 <= LEN_LINES < 2 ^ 16)
  (LEN_BYTES_range : 0 <= LEN_BYTES < 2 ^ 16)
  (MAX_LINE_LEN_range : 0 <= MAX_LINE_LEN < 2 ^ 8)
  (SUFFIX_LEN_range : 0 <= SUFFIX_LEN < 2 ^ 8) :
  (forall s : SizedQueue.t,
      reachable (SizedQueue_Counter frame LEN_LINES LEN_BYTES MAX_LINE_LEN) s ->
      counters_in_range
        (SizedQueue_Counter frame LEN_LINES LEN_BYTES MAX_LINE_LEN)
        LEN_LINES LEN_BYTES s)
  /\
  (forall s : SimpleCounter.t,
      reachable (SimpleCounter_Counter LEN_LINES LEN_BYTES SUFFIX_LEN) s ->
      counters_in_range
        (SimpleCounter_Counter LEN_LINES LEN_BYTES SUFFIX_LEN)
        LEN_LINES LEN_BYTES s).
Proof.
  split; intros s Hreach; unfold counters_in_range; simpl.
  - apply SizedQueueFacts.reachable_inv in Hreach; try assumption.
    pose proof (SizedQueueFacts.inv_bounds _ _ _ s Hreach) as [Hl Hb].
    assert (Hsize : SizedQueue.size LEN_LINES s
                    = Z.of_nat (length (SizedQueueSpec.contents s)))
      by (eapply SizedQueueFacts.size_inv; eassumption).
    destruct Hreach as [H1 _ _ _ _ _ _ _].
    unfold SizedQueue.getFreeLines, SizedQueue.getFreeBytes. lia.
  - apply SimpleCounterFacts.counter_reachable_inv in Hreach; try assumption.
    eapply SimpleCounterFacts.counter_inv_bounds; eassumption.
Qed.

Lemma reachable_counters_in_range_witness :
  counters_in_range Samples.sizedC 3 32 Samples.sized /\
  counters_in_range Samples.simpleC 3 32 Samples.simple.
Proof.
  destruct (reachable_counters_in_range 3 32 8 1 4
              ltac:(lia) ltac:(lia) ltac:(lia) ltac:(lia)) as [Hsized Hsimple].
  split.
  - apply Hsized. exact Samples_sized_reachable.
  - apply Hsimple. exact Samples_simple_reachable.
Defined.

(** C5, as stated, at [SimpleCounter<16, 128, 1>]: a successful push of 101
    bytes takes 102 bytes of the budget, which is [MAX_LINE_LEN + 1] for no
    line bound below 101. *)
Lemma SimpleCounter_push_charges_full_length :
  let C := SimpleCounter_Counter 16 128 1 in
  exists s',
    push C (init C) (replicate 101 x41) 101 = Some (true, s') /\
    getFreeBytes C (init C) - getFreeBytes C s' = 102 /\
    forall MAX_LINE_LEN : Z,
      MAX_LINE_LEN < 101 ->
      getFreeBytes C (init C) - getFreeBytes C s' <> MAX_LINE_LEN + 1.
Proof.
  eexists. split; [reflexivity|]. split; [reflexivity|].
  intros m Hm. change (102 <> m + 1). lia.
Qed.

(** C5, amended.  A successful [SizedQueue::push] of a record longer than
    [MAX_LINE_LEN] stores the first [MAX_LINE_LEN] bytes and takes
    [MAX_LINE_LEN + 1] bytes of the budget.  [SimpleCounter] has no line
    bound: a successful push queues the length as given and takes
    [len + SUFFIX_LEN] bytes (computed in [size_t]). *)
Theorem push_long_record
  (LEN_LINES LEN_BYTES MAX_LINE_LEN SUFFIX_LEN frame : Z)
  (LEN_LINES_range : 0 <= LEN_LINES < 2 ^ 16)
  (LEN_BYTES_range : 0 <= LEN_BYTES < 2 ^ 16)
  (MAX_LINE_LEN_range : 0 <= MAX_LINE_LEN < 2 ^ 8)
  (SUFFIX_LEN_range : 0 <= SUFFIX_LEN < 2 ^ 8) :
  (forall (s : SizedQueue.t) (msg : list byte) (len : Z) (s' : SizedQueue.t),
      let C := SizedQueue_Counter frame LEN_LINES LEN_BYTES MAX_LINE_LEN in
      reachable C s ->
      0 <= len < 2 ^ 32 -> len <= Z.of_nat (length msg) ->
      MAX_LINE_LEN < len ->
      push C s msg len = Some (true, s') ->
      getFreeBytes C s' = getFreeBytes C s - (MAX_LINE_LEN + 1) /\
      MessageBuffer.messages (SizedQueue.buf s')
      = MessageBuffer.messages (SizedQueue.buf s)
        ++ [take (Z.to_nat MAX_LINE_LEN) msg] /\
      Z.of_nat (length (take (Z.to_nat MAX_LINE_LEN) msg)) = MAX_LINE_LEN)
  /\
  (forall (s : SimpleCounter.t) (msg : list byte) (len : Z) (s' : SimpleCounter.t),
      let C := SimpleCounter_Counter LEN_LINES LEN_BYTES SUFFIX_LEN in
      reachable C s ->
      push C s msg len = Some (true, s') ->
      getFreeBytes C s' = getFreeBytes C s - size_t (len + SUFFIX_LEN) /\
      SimpleCounter.queue s' = SimpleCounter.queue s ++ [len]).
Proof.
  split.
  - intros s msg len s' C Hreach Hlen Hmsg Hlong Hpush.
    apply SizedQueueFacts.reachable_inv in Hreach; try assumption.
    simpl in Hpush |- *.
    assert (Htr : SizedQueueSpec.truncated MAX_LINE_LEN len = MAX_LINE_LEN).
    { rewrite SizedQueueFacts.truncated_min. lia. }
    pose proof (SizedQueueFacts.push_true frame LEN_LINES LEN_BYTES MAX_LINE_LEN
                  LEN_LINES_range LEN_BYTES_range MAX_LINE_LEN_range
                  s msg len s' Hreach Hlen Hmsg Hpush) as H.
    cbv zeta in H. rewrite Htr in H.
    destruct H as (Hm & _ & Hstore & _ & Hfb & _).
    unfold SizedQueue.getFreeBytes. rewrite Hfb, Hstore.
    unfold SizedQueueSpec.charge. rewrite Hm. auto.
  - intros s msg len s' C Hreach Hpush.
    apply SimpleCounterFacts.counter_reachable_inv in Hreach; try assumption.
    simpl in Hpush |- *.
    assert (H : SimpleCounter.queue s' = SimpleCounter.queue s ++ [len] /\
                SimpleCounter.freeBytes s'
                = SimpleCounter.freeBytes s
                  - SimpleCounterSpec.charge SUFFIX_LEN len /\
                SimpleCounterSpec.inv LEN_LINES LEN_BYTES SUFFIX_LEN s')
      by (eapply SimpleCounterFacts.counter_push_true; eassumption).
    destruct H as (Hq & Hfb & _).
    unfold SimpleCounter.getFreeBytes. rewrite Hfb, Hq. auto.
Qed.

Lemma push_long_record_witness :
  let C := SizedQueue_Counter 4 16 128 100 in
  exists s',
    push C (init C) (replicate 120 x41) 120 = Some (true, s') /\
    getFreeBytes C s' = getFreeBytes C (init C) - (100 + 1) /\
    MessageBuffer.messages (SizedQueue.buf s')
    = MessageBuffer.messages (SizedQueue.buf (init C))
      ++ [take (Z.to_nat 100) (replicate 120 x41)].
Proof.
  eexists. split; [reflexivity|].
  destruct (proj1 (push_long_record 16 128 100 1 4
                     ltac:(lia) ltac:(lia) ltac:(lia) ltac:(lia))
              (init (SizedQueue_Counter 4 16 128 100))
              (replicate 120 x41) 120 _
              (reachable_init _) ltac:(lia) ltac:(simpl; lia) ltac:(lia)
              eq_refl) as (H1 & H2 & _).
  split; [exact H1|exact H2].
Defined.

(** C6.  For both implementations of [Counter]: when [canPush(len)] is
    false, [push] returns false and the queue is as before the call; in
    particular a push into a queue that holds [LEN_LINES] records fails and
    changes nothing. *)
Theorem push_rejected
  (LEN_LINES LEN_BYTES MAX_LINE_LEN SUFFIX_LEN frame : Z)
  (LEN_LINES_range : 0 <= LEN_LINES < 2 ^ 16)
  (LEN_BYTES_range : 0 <= LEN_BYTES < 2 ^ 16)
  (MAX_LINE_LEN_range : 0 <= MAX_LINE_LEN < 2 ^ 8)
  (SUFFIX_LEN_range : 0 <= SUFFIX_LEN < 2 ^ 8) :
  let sized := SizedQueue_Counter frame LEN_LINES LEN_BYTES MAX_LINE_LEN in
  let simple := SimpleCounter_Counter LEN_LINES LEN_BYTES SUFFIX_LEN in
  (forall s msg len,
      canPush sized s len = false -> push sized s msg len = Some (false, s))
  /\
  (forall s msg len,
      canPush simple s len = false -> push simple s msg len = Some (false, s))
  /\
  (forall s msg len,
      reachable sized s -> size sized s = LEN_LINES ->
      canPush sized s len = false /\ push sized s msg len = Some (false, s))
  /\
  (forall s msg len,
      reachable simple s -> size simple s = LEN_LINES ->
      canPush simple s len = false /\ push simple s msg len = Some (false, s)).
Proof.
  intros sized simple.
  assert (Hsized : forall s msg len,
             canPush sized s len = false -> push sized s msg len = Some (false, s)).
  { intros s msg len H. simpl in *. unfold SizedQueue.push. now rewrite H. }
  assert (Hsimple : forall s msg len,
             canPush simple s len = false -> push simple s msg len = Some (false, s)).
  { intros s msg len H. simpl in *. unfold SimpleCounter.push. now rewrite H. }
  split; [exact Hsized|]. split; [exact Hsimple|]. split.
  - intros s msg len Hreach Hfull.
    assert (Hcan : canPush sized s len = false).
    { apply SizedQueueFacts.reachable_inv in Hreach; try assumption.
      pose proof (SizedQueueFacts.inv_bounds _ _ _ s Hreach) as [Hl Hb].
      simpl in *. unfold SizedQueue.size in Hfull.
      rewrite size_t_small in Hfull by lia.
      unfold SizedQueue.canPush. rewrite andb_false_iff. right.
      rewrite Z.gtb_ltb. apply Z.ltb_ge. lia. }
    split; [exact Hcan|now apply Hsized].
  - intros s msg len Hreach Hfull.
    assert (Hcan : canPush simple s len = false).
    { simpl in *. unfold SimpleCounter.size in Hfull.
      unfold SimpleCounter.canPush. rewrite andb_false_iff. left.
      apply Z.ltb_ge. lia. }
    split; [exact Hcan|now apply Hsimple].
Qed.

Lemma push_rejected_witness :
  (canPush Samples.sizedC Samples.sized_full 1 = false /\
   push Samples.sizedC Samples.sized_full [x45] 1 = Some (false, Samples.sized_full))
  /\
  (canPush Samples.simpleC Samples.simple_full 1 = false /\
   push Samples.simpleC Samples.simple_full [x45] 1
   = Some (false, Samples.simple_full)).
Proof.
  destruct (push_rejected 3 32 8 1 4
              ltac:(lia) ltac:(lia) ltac:(lia) ltac:(lia))
    as (_ & _ & Hsized & Hsimple).
  split.
  - apply Hsized; [exact Samples_sized_full_reachable|reflexivity].
  - apply Hsimple; [exact Samples_simple_full_reachable|reflexivity].
Defined.

(** C7.  Draining a [SizedQueue]: whatever peeks are interleaved with the
    pops, the pops release the same records in the same order, with the
    same refund for each (its stored length and one byte), as the pops alone;
    the records are the oldest buffered ones, oldest first, and the counters
    and the remaining contents agree at the end. *)
Theorem SizedQueue_drain_equivalence
  (LEN_LINES LEN_BYTES MAX_LINE_LEN frame : Z)
  (LEN_LINES_range : 0 <= LEN_LINES < 2 ^ 16)
  (LEN_BYTES_range : 0 <= LEN_BYTES < 2 ^ 16)
  (MAX_LINE_LEN_range : 0 <= MAX_LINE_LEN < 2 ^ 8)
  (s : SizedQueue.t) (ops : list SizedQueueSpec.drain_op) :
  reachable (SizedQueue_Counter frame LEN_LINES LEN_BYTES MAX_LINE_LEN) s ->
  let pops := List.filter SizedQueueSpec.is_pop ops in
  let with_peeks := SizedQueueSpec.drain LEN_LINES MAX_LINE_LEN s ops in
  let pops_only := SizedQueueSpec.drain LEN_LINES MAX_LINE_LEN s pops in
  snd with_peeks = snd pops_only /\
  snd pops_only
  = map (fun m => (SizedQueueSpec.charge m, m))
        (take (length pops) (SizedQueueSpec.contents s)) /\
  SizedQueue.freeBytes (fst with_peeks) = SizedQueue.freeBytes (fst pops_only) /\
  SizedQueue.freeLines (fst with_peeks) = SizedQueue.freeLines (fst pops_only) /\
  SizedQueueSpec.contents (fst with_peeks)
  = SizedQueueSpec.contents (fst pops_only).
Proof.
  intros Hreach pops with_peeks pops_only.
  apply SizedQueueFacts.reachable_inv in Hreach; try assumption.
  assert (Hidem : List.filter SizedQueueSpec.is_pop pops = pops).
  { subst pops. induction ops as [|[] ops IH]; simpl; [reflexivity|exact IH|].
    now rewrite IH. }
  pose proof (SizedQueueFacts.drain_spec LEN_LINES LEN_BYTES MAX_LINE_LEN
                LEN_LINES_range LEN_BYTES_range MAX_LINE_LEN_range
                ops s Hreach) as H1.
  pose proof (SizedQueueFacts.drain_spec LEN_LINES LEN_BYTES MAX_LINE_LEN
                LEN_LINES_range LEN_BYTES_range MAX_LINE_LEN_range
                pops s Hreach) as H2.
  cbv zeta in H1, H2. rewrite Hidem in H2.
  fold pops with_peeks in H1. fold pops_only in H2.
  destruct H1 as (T1 & C1 & L1 & B1 & _), H2 as (T2 & C2 & L2 & B2 & _).
  repeat apply conj; congruence.
Qed.

Lemma SizedQueue_drain_equivalence_witness :
  let ops := [SizedQueueSpec.DPeek; SizedQueueSpec.DPeek; SizedQueueSpec.DPop;
              SizedQueueSpec.DPeek; SizedQueueSpec.DPop; SizedQueueSpec.DPop] in
  let pops := [SizedQueueSpec.DPop; SizedQueueSpec.DPop; SizedQueueSpec.DPop] in
  snd (SizedQueueSpec.drain 3 8 Samples.sized ops)
  = snd (SizedQueueSpec.drain 3 8 Samples.sized pops) /\
  snd (SizedQueueSpec.drain 3 8 Samples.sized pops)
  = [(3, [x41; x42]); (2, [x43])].
Proof.
  destruct (SizedQueue_drain_equivalence 3 32 8 4
              ltac:(lia) ltac:(lia) ltac:(lia) Samples.sized
              [SizedQueueSpec.DPeek; SizedQueueSpec.DPeek; SizedQueueSpec.DPop;
               SizedQueueSpec.DPeek; SizedQueueSpec.DPop; SizedQueueSpec.DPop]
              Samples_sized_reachable) as (H1 & H2 & _).
  split; [exact H1|exact H2].
Defined.

(** C8.  In a reachable, non-empty [SizedQueue] two calls of [peek] in a row
    return the same length and the same line, those of the oldest record;
    the second call changes nothing at all and the first changes none of
    [freeLines], [freeBytes] and [size()]. *)
Theorem SizedQueue_peek_idempotent
  (LEN_LINES LEN_BYTES MAX_LINE_LEN frame : Z)
  (LEN_LINES_range : 0 <= LEN_LINES < 2 ^ 16)
  (LEN_BYTES_range : 0 <= LEN_BYTES < 2 ^ 16)
  (MAX_LINE_LEN_range : 0 <= MAX_LINE_LEN < 2 ^ 8)
  (s : SizedQueue.t) :
  let C := SizedQueue_Counter frame LEN_LINES LEN_BYTES MAX_LINE_LEN in
  reachable C s -> size C s <> 0 ->
  let first := peek C s in
  let s1 := fst (fst first) in
  let second := peek C s1 in
  snd (fst second) = snd (fst first) /\
  snd second = snd first /\
  fst (fst second) = s1 /\
  (exists m line,
      head (SizedQueueSpec.contents s) = Some m /\
      snd (fst first) = Z.of_nat (length m) /\
      snd first = Some line /\
      take (length m) line = m) /\
  getFreeLines C s1 = getFreeLines C s /\
  getFreeBytes C s1 = getFreeBytes C s /\
  size C s1 = size C s.
Proof.
  intros C Hreach Hsize first s1 second.
  apply SizedQueueFacts.reachable_inv in Hreach; try assumption.
  pose proof (SizedQueueFacts.peek_spec LEN_LINES LEN_BYTES MAX_LINE_LEN
                LEN_LINES_range LEN_BYTES_range s Hreach) as H.
  cbv zeta in H. change (SizedQueue.peek LEN_LINES MAX_LINE_LEN s) with first in H.
  fold s1 in H. destruct H as (Hinv1 & Hc & Hl & Hb & Hfirst).
  assert (Hne : SizedQueueSpec.contents s <> []).
  { intros E. apply Hsize.
    eapply (SizedQueueFacts.size_zero_iff LEN_LINES LEN_BYTES MAX_LINE_LEN);
      eassumption. }
  destruct (SizedQueueSpec.contents s) as [|m rest] eqn:Hcont; [congruence|].
  destruct Hfirst as (Hhave & Hfirst & Htake).
  pose proof (SizedQueueFacts.peek_spec LEN_LINES LEN_BYTES MAX_LINE_LEN
                LEN_LINES_range LEN_BYTES_range s1 Hinv1) as H.
  cbv zeta in H. change (SizedQueue.peek LEN_LINES MAX_LINE_LEN s1) with second in H.
  rewrite Hc in H. destruct H as (_ & _ & _ & _ & _ & Hsecond & _).
  assert (Hsame : fst (fst second) = s1).
  { apply (SizedQueueFacts.peek_cached LEN_LINES MAX_LINE_LEN s1 Hhave). }
  rewrite Hsame in Hsecond. rewrite Hsecond, Hfirst. simpl.
  repeat apply conj; try reflexivity.
  - exists m, (SizedQueue.peekedLine s1). auto.
  - exact Hl.
  - exact Hb.
  - unfold SizedQueue.size. now rewrite Hl.
Qed.

Lemma SizedQueue_peek_idempotent_witness :
  let first := peek Samples.sizedC Samples.sized in
  let second := peek Samples.sizedC (fst (fst first)) in
  size Samples.sizedC Samples.sized <> 0 /\
  snd (fst second) = snd (fst first) /\
  snd second = snd first.
Proof.
  assert (Hne : size Samples.sizedC Samples.sized <> 0) by discriminate.
  destruct (SizedQueue_peek_idempotent 3 32 8 4
              ltac:(lia) ltac:(lia) ltac:(lia) Samples.sized
              Samples_sized_reachable Hne) as (H1 & H2 & _).
  split; [exact Hne|]. split; [exact H1|exact H2].
Defined.

(** C10.  In every reachable state of a [SizedQueue] (with a storage area
    of at least one byte) [freeBytes >= 1] and [bytes() <= LEN_BYTES - 1]:
    the strict comparison of [canPush] leaves a byte of the budget unused. *)
Theorem SizedQueue_freeBytes_positive
  (LEN_LINES LEN_BYTES MAX_LINE_LEN frame : Z)
  (LEN_LINES_range : 0 <= LEN_LINES < 2 ^ 16)
  (LEN_BYTES_range : 0 < LEN_BYTES < 2 ^ 16)
  (MAX_LINE_LEN_range : 0 <= MAX_LINE_LEN < 2 ^ 8)
  (s : SizedQueue.t) :
  let C := SizedQueue_Counter frame LEN_LINES LEN_BYTES MAX_LINE_LEN in
  reachable C s ->
  1 <= getFreeBytes C s /\ bytes C s <= LEN_BYTES - 1.
Proof.
  intros C Hreach.
  assert (Hrange : 0 <= LEN_BYTES < 2 ^ 16) by lia.
  assert (Hpos : 1 <= SizedQueue.freeBytes s).
  { eapply (SizedQueueFacts.reachable_freeBytes_pos frame LEN_LINES LEN_BYTES
              MAX_LINE_LEN); try eassumption; lia. }
  apply SizedQueueFacts.reachable_inv in Hreach; try assumption.
  pose proof (SizedQueueFacts.inv_bounds _ _ _ s Hreach) as [_ Hb].
  simpl. unfold SizedQueue.getFreeBytes, SizedQueue.bytes.
  rewrite size_t_small by lia. lia.
Qed.

Lemma SizedQueue_freeBytes_positive_witness :
  1 <= getFreeBytes Samples.sizedC Samples.sized_full /\
  bytes Samples.sizedC Samples.sized_full <= 32 - 1.
Proof.
  apply (SizedQueue_freeBytes_positive 3 32 8 4
           ltac:(lia) ltac:(lia) ltac:(lia) Samples.sized_full
           Samples_sized_full_reachable).
Defined.

(** C9.  The send behind a passed [canPush] can fail, and the assertion of
    [SizedQueue::push] is reached.  [SizedQueue<16, 128, 100>] over a message
    buffer with 4-byte length fields: after a 100-byte record has been
    pushed, [canPush(20)] holds (27 free bytes against 21), but the buffer
    has 127 - 104 = 23 bytes left and the record needs 24.  And in the
    constructed queue [canPush(0)] holds while a send of no bytes reports 0
    bytes written. *)
Theorem SizedQueue_push_assertion_reached :
  let C := SizedQueue_Counter 4 16 128 100 in
  (exists s1,
      run C (init C) [Push (replicate 100 x41) 100] = Some s1 /\
      canPush C s1 20 = true /\
      push C s1 (replicate 20 x42) 20 = None)
  /\
  (canPush C (init C) 0 = true /\ push C (init C) [] 0 = None).
Proof.
  split.
  - eexists. split; [reflexivity|]. split; reflexivity.
  - split; reflexivity.
Qed.

(** C1.  After [clear()] and one successful [push], the [MessageQueue] holds
    one record and one tag while [count()] is 0: [push] never raises
    [itemCount]. *)
Theorem MessageQueue_push_leaves_count :
  let q0 := MessageQueue.clear (MessageQueue.MessageQueue (Tag := nat) 128 100) in
  let r := MessageQueue.push 4 q0 (MessageQueue.mkMessage [x41] 1 7%nat) in
  fst r = true /\
  MessageBuffer.messages (MessageQueue.buf (snd r)) = [[x41]] /\
  EtlQueue.size (MessageQueue.tags (snd r)) = 1 /\
  MessageQueue.count (snd r) = 0.
Proof. repeat split. Qed.

(** C2.  After [clear()] and three successful pushes with the tags 1, 2
    and 3, [peek] and [pop] report an empty [MessageQueue] and hand back no
    tag; the three tags stay queued. *)
Theorem MessageQueue_tags_not_delivered :
  let q0 := MessageQueue.clear (MessageQueue.MessageQueue (Tag := nat) 128 100) in
  let p1 := MessageQueue.push 4 q0 (MessageQueue.mkMessage [x41] 1 1%nat) in
  let p2 := MessageQueue.push 4 (snd p1) (MessageQueue.mkMessage [x42] 1 2%nat) in
  let p3 := MessageQueue.push 4 (snd p2) (MessageQueue.mkMessage [x43] 1 3%nat) in
  let q := snd p3 in
  (fst p1 = true /\ fst p2 = true /\ fst p3 = true) /\
  MessageQueue.tags q = [1; 2; 3]%nat /\
  MessageQueue.peek 100 q = (false, q, None) /\
  MessageQueue.pop 100 q = (false, q).
Proof. repeat split. Qed.

(** * Further properties of the queues *)

(** ** SizedQueue: producers, consumers and the line buffer *)

Module SizedQueueClients.
Import SizedQueueSpec.

Section Template.
Variable sbBYTES_TO_STORE_MESSAGE_LENGTH : Z.
Variables LEN_LINES LEN_BYTES MAX_LINE_LEN : Z.
Hypothesis LEN_LINES_range : 0 <= LEN_LINES < 2 ^ 16.
Hypothesis LEN_BYTES_range : 0 <= LEN_BYTES < 2 ^ 16.
Hypothesis MAX_LINE_LEN_range : 0 <= MAX_LINE_LEN < 2 ^ 8.

Local Abbreviation t := SizedQueue.t.
Local Abbreviation inv := (inv LEN_LINES LEN_BYTES MAX_LINE_LEN).
Local Abbreviation C :=
  (SizedQueue_Counter sbBYTES_TO_STORE_MESSAGE_LENGTH
     LEN_LINES LEN_BYTES MAX_LINE_LEN).

Lemma push_all_contents (records : list (list byte * Z)) :
  forall s s' : t,
    inv s -> Forall valid_record records ->
    push_all C s records = Some s' ->
    inv s' /\ contents s' = contents s ++ map (stored MAX_LINE_LEN) records.
Proof.
  induction records as [|[msg len] records IH]; intros s s' Hinv Hvalid Hpush.
  - simpl in *. injection Hpush as <-. now rewrite app_nil_r.
  - inversion Hvalid as [|? ? [Hlen Hmsg] Hrest]; subst. simpl in Hlen, Hmsg.
    simpl in Hpush.
    destruct (SizedQueue.push sbBYTES_TO_STORE_MESSAGE_LENGTH MAX_LINE_LEN
                s msg len) as [[[] s1]|] eqn:E; try discriminate.
    pose proof (SizedQueueFacts.push_true _ _ _ _ LEN_LINES_range
                  LEN_BYTES_range MAX_LINE_LEN_range s msg len s1
                  Hinv Hlen Hmsg E) as H.
    cbv zeta in H. destruct H as (_ & Hc & _ & _ & _ & _ & _ & Hinv1).
    destruct (IH s1 s' Hinv1 Hrest Hpush) as [Hinv' Hc'].
    split; [exact Hinv'|]. rewrite Hc', Hc, <- app_assoc. reflexivity.
Qed.

(** A consumer is handed the buffered records, oldest first, each with
    its length. *)
Lemma consume_spec (n : nat) :
  forall s : t,
    inv s -> (n <= length (contents s))%nat ->
    let r := consume C n s in
    snd r = map (fun m => (Z.of_nat (length m), Some m)) (take n (contents s)) /\
    contents (fst r) = drop n (contents s) /\
    SizedQueue.freeLines (fst r) = SizedQueue.freeLines s + Z.of_nat n /\
    SizedQueue.freeBytes (fst r)
    = SizedQueue.freeBytes s + charged (take n (contents s)) /\
    inv (fst r).
Proof.
  induction n as [|n IH]; intros s Hinv Hn.
  - simpl. repeat apply conj; try reflexivity; try lia; assumption.
  - destruct (SizedQueueFacts.peek_spec _ _ MAX_LINE_LEN LEN_LINES_range
                LEN_BYTES_range s Hinv) as (Hinv1 & Hc1 & Hl1 & Hb1 & Hpeek).
    destruct (contents s) as [|m rest] eqn:Hcont; [simpl in Hn; lia|].
    destruct Hpeek as (_ & Hpeek & Htake).
    set (s1 := fst (fst (SizedQueue.peek LEN_LINES MAX_LINE_LEN s))) in *.
    pose proof (SizedQueueFacts.pop_spec _ _ _ LEN_LINES_range LEN_BYTES_range
                  MAX_LINE_LEN_range s1 Hinv1) as Hpop.
    rewrite Hc1 in Hpop. destruct Hpop as (_ & Hc2 & Hl2 & Hb2 & _ & Hinv2).
    specialize (IH _ Hinv2). cbv zeta in IH. rewrite Hc2, Hl2, Hb2 in IH.
    simpl in Hn. specialize (IH ltac:(lia)).
    cbv zeta. simpl consume.
    change (peek C s) with (SizedQueue.peek LEN_LINES MAX_LINE_LEN s).
    rewrite Hpeek.
    change (pop C s1) with (SizedQueue.pop LEN_LINES MAX_LINE_LEN s1).
    destruct (consume C n (SizedQueue.pop LEN_LINES MAX_LINE_LEN s1))
      as [sf tr].
    simpl in *. destruct IH as (-> & -> & -> & -> & Hinvf).
    rewrite Nat2Z.id, Htake.
    repeat apply conj; try reflexivity; try lia; assumption.
Qed.

Lemma terminated_step (s : t) (o : op) (s' : t) :
  inv s -> terminated s -> step C s o = Some s' -> terminated s'.
Proof.
  intros Hinv Hterm Hstep. pose proof Hinv as [_ _ _ _ Hrec _ Hline _].
  destruct o as [|msg len| |]; simpl in Hstep.
  - injection Hstep as <-. intros H. discriminate H.
  - unfold SizedQueue.push in Hstep.
    destruct (negb _); [injection Hstep as <-; exact Hterm|].
    destruct (MessageBuffer.xMessageBufferSend _ _ _ _) as [b sent].
    destruct (sent =? 0); [discriminate|]. injection Hstep as <-. exact Hterm.
  - injection Hstep as <-. unfold SizedQueue.peek.
    destruct (SizedQueue.size LEN_LINES s =? 0); [exact Hterm|]. simpl.
    destruct (SizedQueue.havePeekedLine s) eqn:Hhave; [exact Hterm|].
    unfold SizedQueue.loadLineFromBuf, MessageBuffer.xMessageBufferReceive.
    destruct (MessageBuffer.messages (SizedQueue.buf s)) as [|m rest];
      [intros H; discriminate H|].
    inversion Hrec as [|? ? Hm _]; subst.
    destruct (Z.leb_spec (Z.of_nat (length m)) MAX_LINE_LEN) as [_|?]; [|lia].
    intros _. simpl. rewrite Nat2Z.id.
    apply list_lookup_insert_eq. rewrite length_app, length_drop. lia.
  - injection Hstep as <-. unfold SizedQueue.pop.
    destruct (SizedQueue.size LEN_LINES s =? 0); [exact Hterm|].
    destruct (SizedQueue.havePeekedLine s) eqn:Hhave;
      [intros H; discriminate H|].
    destruct (MessageBuffer.xMessageBufferReceive _ _ _) as [[b rx] r].
    intros H. simpl in H. congruence.
Qed.

Lemma reachable_terminated (s : t) : reachable C s -> inv s /\ terminated s.
Proof.
  revert s. apply (reachable_invariant C).
  - split; [now apply SizedQueueFacts.init_inv|]. intros H. discriminate H.
  - intros s o s' [Hinv Hterm] Hvalid Hstep. split.
    + now apply (SizedQueueFacts.step_inv sbBYTES_TO_STORE_MESSAGE_LENGTH
                   LEN_LINES LEN_BYTES MAX_LINE_LEN LEN_LINES_range
                   LEN_BYTES_range MAX_LINE_LEN_range s o s').
    + now apply (terminated_step s o s').
Qed.
End Template.
End SizedQueueClients.

(** X1.  First in, first out through a [SizedQueue]: when the records pushed
    into a new queue are all accepted, a consumer that peeks and pops once
    per record is handed, in the order of the pushes, the first
    [min(len, MAX_LINE_LEN)] bytes of each record with that length, and
    leaves the queue with both budgets full. *)
Theorem SizedQueue_fifo
  (LEN_LINES LEN_BYTES MAX_LINE_LEN frame : Z)
  (LEN_LINES_range : 0 <= LEN_LINES < 2 ^ 16)
  (LEN_BYTES_range : 0 <= LEN_BYTES < 2 ^ 16)
  (MAX_LINE_LEN_range : 0 <= MAX_LINE_LEN < 2 ^ 8)
  (records : list (list byte * Z)) (s : SizedQueue.t) :
  let C := SizedQueue_Counter frame LEN_LINES LEN_BYTES MAX_LINE_LEN in
  Forall valid_record records ->
  push_all C (init C) records = Some s ->
  let r := consume C (length records) s in
  snd r
  = map (fun rec => (Z.min (snd rec) MAX_LINE_LEN, Some (stored MAX_LINE_LEN rec)))
        records /\
  Forall (fun rec => Z.of_nat (length (stored MAX_LINE_LEN rec))
                     = Z.min (snd rec) MAX_LINE_LEN) records /\
  getFreeLines C (fst r) = LEN_LINES /\
  getFreeBytes C (fst r) = LEN_BYTES /\
  size C (fst r) = 0.
Proof.
  intros C Hvalid Hpush r.
  assert (Hlen : Forall (fun rec => Z.of_nat (length (stored MAX_LINE_LEN rec))
                                    = Z.min (snd rec) MAX_LINE_LEN) records).
  { eapply Forall_impl; [exact Hvalid|]. intros [msg len] [Hl Hm]. simpl in *.
    unfold stored. simpl. rewrite SizedQueueFacts.truncated_min, length_take.
    lia. }
  destruct (SizedQueueClients.push_all_contents frame LEN_LINES LEN_BYTES
              MAX_LINE_LEN LEN_LINES_range LEN_BYTES_range MAX_LINE_LEN_range
              records (init C) s
              (SizedQueueFacts.init_inv _ _ _ LEN_LINES_range LEN_BYTES_range
                 MAX_LINE_LEN_range) Hvalid Hpush) as [Hinv Hcont].
  change (SizedQueueSpec.contents (init C)) with (@nil (list byte)) in Hcont.
  simpl in Hcont.
  assert (Hn : length records = length (SizedQueueSpec.contents s))
    by now rewrite Hcont, length_map.
  pose proof (SizedQueueClients.consume_spec frame LEN_LINES LEN_BYTES
                MAX_LINE_LEN LEN_LINES_range LEN_BYTES_range MAX_LINE_LEN_range
                (length records) s Hinv ltac:(lia)) as H.
  cbv zeta in H. fold C r in H. rewrite Hn, firstn_all in H.
  destruct H as (Htr & _ & Hfl & Hfb & _).
  destruct Hinv as [H1 H2 _ _ _ _ _ _].
  split.
  { rewrite Htr, Hcont, map_map. clear -Hlen.
    induction Hlen as [|rec l Hrec _ IH]; simpl; [reflexivity|].
    now rewrite IH, Hrec. }
  split; [exact Hlen|].
  simpl. unfold SizedQueue.getFreeLines, SizedQueue.getFreeBytes, SizedQueue.size.
  rewrite Hfl, Hfb.
  replace (SizedQueue.freeLines s + Z.of_nat (length (SizedQueueSpec.contents s)))
    with LEN_LINES by lia.
  rewrite H2. rewrite Z.sub_diag. auto.
Qed.

Lemma SizedQueue_fifo_witness :
  let C := SizedQueue_Counter 4 3 32 8 in
  let long := [x30; x31; x32; x33; x34; x35; x36; x37; x38; x39] in
  let records := [([x41; x42], 2); (long, 10)] in
  snd (consume C 2 (default (init C) (push_all C (init C) records)))
  = [(2, Some [x41; x42]);
     (8, Some [x30; x31; x32; x33; x34; x35; x36; x37])].
Proof.
  intros C long records.
  assert (Hvalid : Forall valid_record records).
  { repeat constructor; simpl; lia. }
  destruct (SizedQueue_fifo 3 32 8 4 ltac:(lia) ltac:(lia) ltac:(lia)
              records (default (init C) (push_all C (init C) records))
              Hvalid eq_refl) as [H _].
  exact H.
Defined.

(** X2.  [clear], whatever the state it is called in.  A cleared
    [SizedQueue] has [freeLines = LEN_LINES], [freeBytes = LEN_BYTES], no
    record in its message buffer, [size()] and [bytes()] 0; [peek] returns
    0 without setting the line, and [pop] does nothing.  A cleared
    [SimpleCounter] is the constructed one. *)
Theorem clear_resets (LEN_LINES LEN_BYTES MAX_LINE_LEN SUFFIX_LEN frame : Z) :
  let sized := SizedQueue_Counter frame LEN_LINES LEN_BYTES MAX_LINE_LEN in
  let simple := SimpleCounter_Counter LEN_LINES LEN_BYTES SUFFIX_LEN in
  (forall s : SizedQueue.t,
      let s' := clear sized s in
      getFreeLines sized s' = LEN_LINES /\
      getFreeBytes sized s' = LEN_BYTES /\
      size sized s' = 0 /\
      bytes sized s' = 0 /\
      MessageBuffer.messages (SizedQueue.buf s') = [] /\
      peek sized s' = (s', 0, None) /\
      pop sized s' = s')
  /\
  (forall s : SimpleCounter.t, clear simple s = init simple).
Proof.
  intros sized simple. split; [|reflexivity].
  intros s s'. simpl.
  assert (Hsize : SizedQueue.size LEN_LINES s' = 0).
  { unfold SizedQueue.size. simpl. now rewrite Z.sub_diag. }
  unfold SizedQueue.peek, SizedQueue.pop, SizedQueue.bytes. rewrite Hsize.
  simpl. rewrite Z.sub_diag. auto 10.
Qed.

(** X3.  What [SizedQueue::peek] returns in a reachable state: a length of
    0 exactly when the queue is empty, and then the line is not set and
    nothing changes; otherwise a length between 1 and [MAX_LINE_LEN] and the
    line buffer of [MAX_LINE_LEN + 1] bytes, which holds a NUL at the
    returned length. *)
Theorem SizedQueue_peek_result
  (LEN_LINES LEN_BYTES MAX_LINE_LEN frame : Z)
  (LEN_LINES_range : 0 <= LEN_LINES < 2 ^ 16)
  (LEN_BYTES_range : 0 <= LEN_BYTES < 2 ^ 16)
  (MAX_LINE_LEN_range : 0 <= MAX_LINE_LEN < 2 ^ 8)
  (s : SizedQueue.t) :
  let C := SizedQueue_Counter frame LEN_LINES LEN_BYTES MAX_LINE_LEN in
  reachable C s ->
  let len := snd (fst (peek C s)) in
  let msg := snd (peek C s) in
  (len = 0 <-> size C s = 0) /\
  (size C s = 0 -> peek C s = (s, 0, None)) /\
  (size C s <> 0 ->
   1 <= len <= MAX_LINE_LEN /\
   exists line,
     msg = Some line /\
     Z.of_nat (length line) = MAX_LINE_LEN + 1 /\
     line !! Z.to_nat len = Some x00).
Proof.
  intros C Hreach len msg.
  assert (Hstep : step C s Peek = Some (fst (fst (peek C s)))) by reflexivity.
  destruct (SizedQueueClients.reachable_terminated frame LEN_LINES LEN_BYTES
              MAX_LINE_LEN LEN_LINES_range LEN_BYTES_range MAX_LINE_LEN_range
              s Hreach) as [Hinv Hterm].
  pose proof (SizedQueueClients.terminated_step frame LEN_LINES LEN_BYTES
                MAX_LINE_LEN s Peek _ Hinv Hterm Hstep) as Hterm1.
  pose proof (SizedQueueFacts.size_zero_iff LEN_LINES LEN_BYTES MAX_LINE_LEN
                LEN_LINES_range s Hinv) as Hzero.
  pose proof (SizedQueueFacts.peek_spec LEN_LINES LEN_BYTES MAX_LINE_LEN
                LEN_LINES_range LEN_BYTES_range s Hinv) as H.
  cbv zeta in H. destruct H as (Hinv1 & Hc1 & _ & _ & Hpeek).
  change (SizedQueue.peek LEN_LINES MAX_LINE_LEN s) with (peek C s) in *.
  change (SizedQueue.size LEN_LINES s) with (size C s) in *.
  destruct (SizedQueueSpec.contents s) as [|m rest] eqn:Hcont.
  - assert (Hz : size C s = 0) by now apply Hzero.
    subst len msg. rewrite Hpeek. simpl fst; simpl snd.
    split; [tauto|]. split; [reflexivity|]. intros Hne. contradiction.
  - assert (Hnz : size C s <> 0).
    { intros Hz. apply Hzero in Hz. discriminate Hz. }
    destruct Hpeek as (Hhave & Hpeek & Htake).
    set (s1 := fst (fst (peek C s))) in *.
    assert (Hm : SizedQueue.peekedLineLen s1 = Z.of_nat (length m) /\
                 0 < Z.of_nat (length m) <= MAX_LINE_LEN).
    { pose proof Hinv1 as [_ _ _ _ _ Hcache Hline _].
      unfold SizedQueueSpec.contents, SizedQueueSpec.cached in Hc1.
      rewrite Hhave in Hc1, Hcache. simpl in Hc1. injection Hc1 as Hm _.
      rewrite <- Hm, length_take. lia. }
    destruct Hm as [Hlen Hm].
    specialize (Hterm1 Hhave).
    subst len msg. rewrite Hpeek. simpl fst; simpl snd.
    split; [split; [lia|contradiction]|].
    split; [contradiction|]. intros _. split; [lia|].
    eexists. split; [reflexivity|].
    split; [apply Hinv1|]. rewrite <- Hlen. exact Hterm1.
Qed.

Lemma SizedQueue_peek_result_witness :
  let C := Samples.sizedC in
  size C Samples.sized <> 0 /\
  1 <= snd (fst (peek C Samples.sized)) <= 8 /\
  exists line,
    snd (peek C Samples.sized) = Some line /\
    Z.of_nat (length line) = 8 + 1 /\
    line !! Z.to_nat (snd (fst (peek C Samples.sized))) = Some x00.
Proof.
  intros C.
  assert (Hne : size C Samples.sized <> 0) by discriminate.
  destruct (SizedQueue_peek_result 3 32 8 4 ltac:(lia) ltac:(lia) ltac:(lia)
              Samples.sized Samples_sized_reachable) as (_ & _ & H).
  split; [exact Hne|exact (H Hne)].
Defined.

(** X4.  The accounting of a [SizedQueue] is exact in every reachable
    state: [size()] is the number of buffered records (the cached one
    included), [bytes()] is the sum of their lengths plus one byte each,
    every buffered record has between 1 and [MAX_LINE_LEN] bytes, and
    [bytes() + getFreeBytes() = LEN_BYTES]. *)
Theorem SizedQueue_accounting_exact
  (LEN_LINES LEN_BYTES MAX_LINE_LEN frame : Z)
  (LEN_LINES_range : 0 <= LEN_LINES < 2 ^ 16)
  (LEN_BYTES_range : 0 <= LEN_BYTES < 2 ^ 16)
  (MAX_LINE_LEN_range : 0 <= MAX_LINE_LEN < 2 ^ 8)
  (s : SizedQueue.t) :
  let C := SizedQueue_Counter frame LEN_LINES LEN_BYTES MAX_LINE_LEN in
  reachable C s ->
  size C s = Z.of_nat (length (SizedQueueSpec.contents s)) /\
  bytes C s = SizedQueueSpec.charged (SizedQueueSpec.contents s) /\
  Forall (fun m => 1 <= Z.of_nat (length m) <= MAX_LINE_LEN)
         (SizedQueueSpec.contents s) /\
  bytes C s + getFreeBytes C s = LEN_BYTES.
Proof.
  intros C Hreach.
  apply SizedQueueFacts.reachable_inv in Hreach; try assumption.
  pose proof (SizedQueueFacts.inv_bounds _ _ _ s Hreach) as [Hl Hb].
  pose proof Hreach as [H1 H2 _ _ Hrec Hcache Hline _].
  assert (Hbytes : bytes C s = LEN_BYTES - SizedQueue.freeBytes s).
  { simpl. unfold SizedQueue.bytes. apply size_t_small. lia. }
  split; [eapply SizedQueueFacts.size_inv; eassumption|].
  split; [lia|]. split; [|simpl in *; unfold SizedQueue.getFreeBytes; lia].
  unfold SizedQueueSpec.contents, SizedQueueSpec.cached.
  apply Forall_app. split.
  - destruct (SizedQueue.havePeekedLine s); constructor; [|constructor].
    rewrite length_take. lia.
  - eapply Forall_impl; [exact Hrec|]. intros m Hm. simpl in Hm. lia.
Qed.

Lemma SizedQueue_accounting_exact_witness :
  size Samples.sizedC Samples.sized = 2 /\
  bytes Samples.sizedC Samples.sized = (2 + 1) + (1 + 1).
Proof.
  destruct (SizedQueue_accounting_exact 3 32 8 4
              ltac:(lia) ltac:(lia) ltac:(lia)
              Samples.sized Samples_sized_reachable) as (H1 & H2 & _).
  split; [exact H1|exact H2].
Defined.

(** X5.  Draining restores a [SizedQueue]: from a reachable state, calls of
    [peek] and [pop] in any order with at least [size()] pops end with both
    budgets full, the message buffer empty and the peek cache dropped. *)
Theorem SizedQueue_drain_restores
  (LEN_LINES LEN_BYTES MAX_LINE_LEN frame : Z)
  (LEN_LINES_range : 0 <= LEN_LINES < 2 ^ 16)
  (LEN_BYTES_range : 0 <= LEN_BYTES < 2 ^ 16)
  (MAX_LINE_LEN_range : 0 <= MAX_LINE_LEN < 2 ^ 8)
  (s : SizedQueue.t) (ops : list SizedQueueSpec.drain_op) :
  let C := SizedQueue_Counter frame LEN_LINES LEN_BYTES MAX_LINE_LEN in
  reachable C s ->
  size C s <= Z.of_nat (length (List.filter SizedQueueSpec.is_pop ops)) ->
  let sf := fst (SizedQueueSpec.drain LEN_LINES MAX_LINE_LEN s ops) in
  getFreeLines C sf = LEN_LINES /\
  getFreeBytes C sf = LEN_BYTES /\
  size C sf = 0 /\
  MessageBuffer.messages (SizedQueue.buf sf) = [] /\
  SizedQueue.havePeekedLine sf = false.
Proof.
  intros C Hreach Hpops sf.
  apply SizedQueueFacts.reachable_inv in Hreach; try assumption.
  assert (Hsize : size C s = Z.of_nat (length (SizedQueueSpec.contents s)))
    by (eapply SizedQueueFacts.size_inv; eassumption).
  pose proof (SizedQueueFacts.drain_spec LEN_LINES LEN_BYTES MAX_LINE_LEN
                LEN_LINES_range LEN_BYTES_range MAX_LINE_LEN_range
                ops s Hreach) as H.
  cbv zeta in H. fold sf in H.
  rewrite take_ge, drop_ge in H by lia.
  destruct H as (_ & Hc & Hfl & Hfb & Hinvf).
  destruct Hreach as [H1 H2 _ _ _ _ _ _].
  assert (Hsf : size C sf = 0).
  { apply (SizedQueueFacts.size_zero_iff LEN_LINES LEN_BYTES MAX_LINE_LEN);
      assumption. }
  unfold SizedQueueSpec.contents, SizedQueueSpec.cached in Hc.
  apply app_eq_nil in Hc as [Hcache Hstore].
  simpl. unfold SizedQueue.getFreeLines, SizedQueue.getFreeBytes.
  repeat apply conj; try assumption; try lia.
  destruct (SizedQueue.havePeekedLine sf); [discriminate|reflexivity].
Qed.

Lemma SizedQueue_drain_restores_witness :
  let ops := [SizedQueueSpec.DPop; SizedQueueSpec.DPeek; SizedQueueSpec.DPop;
              SizedQueueSpec.DPop] in
  let sf := fst (SizedQueueSpec.drain 3 8 Samples.sized ops) in
  getFreeLines Samples.sizedC sf = 3 /\ getFreeBytes Samples.sizedC sf = 32.
Proof.
  intros ops sf.
  destruct (SizedQueue_drain_restores 3 32 8 4
              ltac:(lia) ltac:(lia) ltac:(lia) Samples.sized ops
              Samples_sized_reachable ltac:(vm_compute; discriminate))
    as (H1 & H2 & _).
  split; [exact H1|exact H2].
Defined.

(** X6.  When the store frames a record with at most one byte, the send
    behind a passed [canPush] succeeds for every record that is not empty
    after truncation: in a reachable state such a push returns true. *)
Theorem SizedQueue_send_succeeds
  (LEN_LINES LEN_BYTES MAX_LINE_LEN frame : Z)
  (LEN_LINES_range : 0 <= LEN_LINES < 2 ^ 16)
  (LEN_BYTES_range : 0 <= LEN_BYTES < 2 ^ 16)
  (MAX_LINE_LEN_range : 0 <= MAX_LINE_LEN < 2 ^ 8)
  (s : SizedQueue.t) (msg : list byte) (len : Z) :
  let C := SizedQueue_Counter frame LEN_LINES LEN_BYTES MAX_LINE_LEN in
  frame <= 1 ->
  reachable C s ->
  0 <= len < 2 ^ 32 ->
  0 < Z.min len MAX_LINE_LEN ->
  canPush C s len = true ->
  exists s', push C s msg len = Some (true, s').
Proof.
  intros C Hframe Hreach Hlen Hpos Hcan.
  apply SizedQueueFacts.reachable_inv in Hreach; try assumption.
  assert (Hsome : push C s msg len <> None).
  { apply (SizedQueueFacts.push_send_succeeds frame LEN_LINES LEN_BYTES
             MAX_LINE_LEN); try assumption.
    now rewrite SizedQueueFacts.truncated_min. }
  simpl in *. unfold SizedQueue.push in *. rewrite Hcan in *. simpl in *.
  destruct (MessageBuffer.xMessageBufferSend _ _ _ _) as [b sent].
  destruct (sent =? 0); [contradiction|]. eexists. reflexivity.
Qed.

Lemma SizedQueue_send_succeeds_witness :
  let C := SizedQueue_Counter 1 16 128 100 in
  let first := [Push (replicate 100 x41) 100] in
  let s1 := default (init C) (run C (init C) first) in
  canPush C s1 20 = true /\
  exists s2, push C s1 (replicate 20 x42) 20 = Some (true, s2).
Proof.
  intros C first s1.
  assert (Hreach : reachable C s1).
  { exists first. split; [repeat constructor; simpl; lia|reflexivity]. }
  split; [reflexivity|].
  exact (SizedQueue_send_succeeds 16 128 100 1
           ltac:(lia) ltac:(lia) ltac:(lia)
           s1 (replicate 20 x42) 20 ltac:(lia)
           Hreach ltac:(lia) ltac:(lia) eq_refl).
Defined.

(** ** SimpleCounter: producers and consumers *)

Module SimpleCounterClients.
Import SimpleCounterSpec.

Section Template.
Variables LEN_LINES LEN_BYTES SUFFIX_LEN : Z.
Hypothesis LEN_LINES_range : 0 <= LEN_LINES < 2 ^ 16.
Hypothesis LEN_BYTES_range : 0 <= LEN_BYTES < 2 ^ 16.
Hypothesis SUFFIX_LEN_range : 0 <= SUFFIX_LEN < 2 ^ 8.

Local Abbreviation t := SimpleCounter.t.
Local Abbreviation inv := (inv LEN_LINES LEN_BYTES SUFFIX_LEN).
Local Abbreviation charged := (charged SUFFIX_LEN).
Local Abbreviation C := (SimpleCounter_Counter LEN_LINES LEN_BYTES SUFFIX_LEN).

Lemma push_all_queue (records : list (list byte * Z)) :
  forall s s' : t,
    inv s -> push_all C s records = Some s' ->
    inv s' /\ SimpleCounter.queue s' = SimpleCounter.queue s ++ map snd records.
Proof.
  induction records as [|[msg len] records IH]; intros s s' Hinv Hpush.
  - simpl in *. injection Hpush as <-. now rewrite app_nil_r.
  - simpl in Hpush.
    destruct (SimpleCounter.push LEN_LINES SUFFIX_LEN s msg len)
      as [[[] s1]|] eqn:E; try discriminate.
    assert (H : SimpleCounter.queue s1 = SimpleCounter.queue s ++ [len] /\
                SimpleCounter.freeBytes s1
                = SimpleCounter.freeBytes s - charge SUFFIX_LEN len /\
                inv s1)
      by (eapply SimpleCounterFacts.counter_push_true; eassumption).
    destruct H as (Hq & _ & Hinv1).
    destruct (IH s1 s' Hinv1 Hpush) as [Hinv' Hq'].
    split; [exact Hinv'|]. rewrite Hq', Hq, <- app_assoc. reflexivity.
Qed.

(** A consumer is handed the queued lengths, oldest first, never a line,
    and leaves the constructed counter behind. *)
Lemma consume_all (q : list Z) :
  forall fb : Z,
    inv (SimpleCounter.mk q fb) ->
    consume C (length q) (SimpleCounter.mk q fb)
    = (SimpleCounter.mk [] (fb + charged q), map (fun v => (v, None)) q).
Proof.
  induction q as [|v q IH]; intros fb Hinv.
  - simpl. now rewrite Z.add_0_r.
  - pose proof Hinv as [Hl Hb Hfb]. simpl in Hl, Hb, Hfb.
    pose proof (SimpleCounterFacts.queue_charge_range SUFFIX_LEN v) as Hv.
    pose proof (SimpleCounterFacts.queue_charged_nonneg SUFFIX_LEN q) as Hq.
    pose proof (SimpleCounterFacts.counter_pop_inv LEN_LINES LEN_BYTES
                  SUFFIX_LEN LEN_BYTES_range _ Hinv) as Hinv'.
    assert (Hpop : SimpleCounter.pop SUFFIX_LEN (SimpleCounter.mk (v :: q) fb)
                   = SimpleCounter.mk q (fb + charge SUFFIX_LEN v)).
    { unfold SimpleCounter.pop, EtlQueue.size. simpl length.
      destruct (Z.eqb_spec (Z.of_nat (S (length q))) 0) as [?|_]; [lia|].
      simpl. fold (charge SUFFIX_LEN v). now rewrite size_t_small by lia. }
    rewrite Hpop in Hinv'.
    simpl length. simpl consume.
    rewrite Hpop, (IH _ Hinv'). simpl. f_equal. f_equal. lia.
Qed.
End Template.
End SimpleCounterClients.

(** X7.  First in, first out through a [SimpleCounter]: when the pushes into
    a new counter are all accepted, a consumer that peeks and pops once per
    push is handed the lengths as they were given, in the order of the
    pushes, never a line, and leaves the counter as constructed. *)
Theorem SimpleCounter_fifo
  (LEN_LINES LEN_BYTES SUFFIX_LEN : Z)
  (LEN_LINES_range : 0 <= LEN_LINES < 2 ^ 16)
  (LEN_BYTES_range : 0 <= LEN_BYTES < 2 ^ 16)
  (SUFFIX_LEN_range : 0 <= SUFFIX_LEN < 2 ^ 8)
  (records : list (list byte * Z)) (s : SimpleCounter.t) :
  let C := SimpleCounter_Counter LEN_LINES LEN_BYTES SUFFIX_LEN in
  push_all C (init C) records = Some s ->
  consume C (length records) s
  = (init C, map (fun rec => (snd rec, None)) records).
Proof.
  intros C Hpush.
  destruct (SimpleCounterClients.push_all_queue LEN_LINES LEN_BYTES SUFFIX_LEN
              LEN_LINES_range LEN_BYTES_range SUFFIX_LEN_range
              records (init C) s
              (SimpleCounterFacts.counter_init_inv _ _ _ LEN_LINES_range
                 LEN_BYTES_range) Hpush) as [Hinv Hq].
  simpl in Hq. destruct s as [q fb]. simpl in Hq. subst q.
  pose proof (SimpleCounterClients.consume_all LEN_LINES LEN_BYTES SUFFIX_LEN
                LEN_BYTES_range _ fb Hinv) as H.
  rewrite length_map in H. fold C in H. rewrite H, map_map.
  destruct Hinv as [_ Hb _]. simpl in Hb. rewrite Hb. reflexivity.
Qed.

Lemma SimpleCounter_fifo_witness :
  let C := SimpleCounter_Counter 3 32 1 in
  let records := [([x41; x42], 2); ([], 7)] in
  consume C 2 (default (init C) (push_all C (init C) records))
  = (init C, [(2, None); (7, None)]).
Proof.
  intros C records.
  exact (SimpleCounter_fifo 3 32 1 ltac:(lia) ltac:(lia) ltac:(lia)
           records (default (init C) (push_all C (init C) records)) eq_refl).
Defined.

(** X8.  Draining restores a [SimpleCounter]: from a reachable state,
    [size()] rounds of [peek] and [pop] hand out the queued lengths, oldest
    first, and end in the constructed counter, every charged byte
    refunded. *)
Theorem SimpleCounter_drain_restores
  (LEN_LINES LEN_BYTES SUFFIX_LEN : Z)
  (LEN_LINES_range : 0 <= LEN_LINES < 2 ^ 16)
  (LEN_BYTES_range : 0 <= LEN_BYTES < 2 ^ 16)
  (SUFFIX_LEN_range : 0 <= SUFFIX_LEN < 2 ^ 8)
  (s : SimpleCounter.t) :
  let C := SimpleCounter_Counter LEN_LINES LEN_BYTES SUFFIX_LEN in
  reachable C s ->
  consume C (Z.to_nat (size C s)) s
  = (init C, map (fun v => (v, None)) (SimpleCounter.queue s)).
Proof.
  intros C Hreach.
  apply SimpleCounterFacts.counter_reachable_inv in Hreach; try assumption.
  destruct s as [q fb].
  pose proof (SimpleCounterClients.consume_all LEN_LINES LEN_BYTES SUFFIX_LEN
                LEN_BYTES_range q fb Hreach) as H.
  simpl size. unfold SimpleCounter.size, EtlQueue.size. simpl.
  rewrite Nat2Z.id. fold C in H. rewrite H.
  destruct Hreach as [_ Hb _]. simpl in Hb. rewrite Hb. reflexivity.
Qed.

Lemma SimpleCounter_drain_restores_witness :
  consume Samples.simpleC 3 Samples.simple_full
  = (init Samples.simpleC, [(2, None); (1, None); (1, None)]).
Proof.
  exact (SimpleCounter_drain_restores 3 32 1 ltac:(lia) ltac:(lia) ltac:(lia)
           Samples.simple_full Samples_simple_full_reachable).
Defined.

(** X9.  [SimpleCounter] adds the suffix to the length in [size_t]: with a
    suffix of at least one byte, the length [2^32 - SUFFIX_LEN], which is
    larger than the whole byte budget, is admitted whenever a line is free,
    and the push takes nothing from the free bytes. *)
Theorem SimpleCounter_wrapped_length_admitted
  (LEN_LINES LEN_BYTES SUFFIX_LEN : Z)
  (LEN_LINES_range : 0 <= LEN_LINES < 2 ^ 16)
  (LEN_BYTES_range : 0 <= LEN_BYTES < 2 ^ 16)
  (SUFFIX_LEN_range : 1 <= SUFFIX_LEN < 2 ^ 8)
  (s : SimpleCounter.t) (msg : list byte) :
  let C := SimpleCounter_Counter LEN_LINES LEN_BYTES SUFFIX_LEN in
  let len := 2 ^ 32 - SUFFIX_LEN in
  reachable C s ->
  size C s < LEN_LINES ->
  LEN_BYTES < len < 2 ^ 32 /\
  canPush C s len = true /\
  exists s',
    push C s msg len = Some (true, s') /\
    getFreeBytes C s' = getFreeBytes C s /\
    size C s' = size C s + 1.
Proof.
  intros C len Hreach Hsize.
  apply SimpleCounterFacts.counter_reachable_inv in Hreach; try lia.
  pose proof Hreach as [_ Hb Hfb].
  pose proof (SimpleCounterFacts.queue_charged_nonneg SUFFIX_LEN
                (SimpleCounter.queue s)).
  assert (Hcharge : size_t (len + SUFFIX_LEN) = 0).
  { subst len. replace (2 ^ 32 - SUFFIX_LEN + SUFFIX_LEN) with (2 ^ 32) by lia.
    reflexivity. }
  assert (Hcan : canPush C s len = true).
  { simpl in *. unfold SimpleCounter.canPush, SimpleCounter.size in *.
    rewrite Hcharge. apply andb_true_iff. split.
    - apply Z.ltb_lt. lia.
    - rewrite Z.geb_leb. apply Z.leb_le. lia. }
  split; [subst len; lia|]. split; [exact Hcan|].
  simpl in *. unfold SimpleCounter.push. rewrite Hcan. simpl.
  eexists. split; [reflexivity|]. simpl. rewrite Hcharge, Z.sub_0_r.
  unfold SimpleCounter.getFreeBytes, SimpleCounter.size, EtlQueue.push,
    EtlQueue.size in *.
  split; [apply size_t_small; lia|].
  simpl.
  destruct (Z.ltb_spec (Z.of_nat (length (SimpleCounter.queue s))) LEN_LINES);
    [|lia].
  rewrite length_app. simpl. lia.
Qed.

Lemma SimpleCounter_wrapped_length_admitted_witness :
  canPush Samples.simpleC Samples.simple (2 ^ 32 - 1) = true /\
  exists s',
    push Samples.simpleC Samples.simple [] (2 ^ 32 - 1) = Some (true, s') /\
    getFreeBytes Samples.simpleC s' = getFreeBytes Samples.simpleC Samples.simple.
Proof.
  destruct (SimpleCounter_wrapped_length_admitted 3 32 1
              ltac:(lia) ltac:(lia) ltac:(lia) Samples.simple []
              Samples_simple_reachable ltac:(vm_compute; reflexivity))
    as (_ & Hcan & s' & Hpush & Hfree & _).
  split; [exact Hcan|]. exists s'. split; [exact Hpush|exact Hfree].
Defined.

(** ** MessageQueue: counters and tags *)

Module MessageQueueClients.
Import MessageQueue.

Section Template.
Context {Tag : Type}.
Variable sbBYTES_TO_STORE_MESSAGE_LENGTH : Z.
Variables SIZE MAX_LINE_LEN : Z.

Local Abbreviation step :=
  (step (Tag:=Tag) sbBYTES_TO_STORE_MESSAGE_LENGTH MAX_LINE_LEN).
Local Abbreviation run :=
  (run (Tag:=Tag) sbBYTES_TO_STORE_MESSAGE_LENGTH MAX_LINE_LEN).
Local Abbreviation reachable :=
  (reachable (Tag:=Tag) sbBYTES_TO_STORE_MESSAGE_LENGTH SIZE MAX_LINE_LEN).

(** What [push] does, case by case. *)
Lemma push_cases (s : t Tag) (msg : Message Tag) :
  EtlQueue.size (tags s) <= SENDER_QUEUE_SIZE ->
  let r := push sbBYTES_TO_STORE_MESSAGE_LENGTH s msg in
  itemCount (snd r) = itemCount s /\
  bytesCount (snd r) = bytesCount s /\
  ((fst r = true /\
    EtlQueue.size (tags s) < SENDER_QUEUE_SIZE /\
    MessageBuffer.messages (buf (snd r))
    = MessageBuffer.messages (buf s) ++ [take (Z.to_nat (len msg)) (data msg)] /\
    tags (snd r) = tags s ++ [tag msg])
   \/
   (fst r = false /\
    MessageBuffer.messages (buf (snd r)) = MessageBuffer.messages (buf s) /\
    tags (snd r) = tags s)).
Proof.
  intros Hcap. unfold push, EtlQueue.available, EtlQueue.push.
  destruct (Z.eqb_spec (SENDER_QUEUE_SIZE - EtlQueue.size (tags s)) 0)
    as [Hfull|Hroom]; simpl; [auto 10|].
  unfold MessageBuffer.xMessageBufferSend.
  destruct (Z.ltb_spec 0 (len msg)) as [Hpos|Hnonpos]; simpl; [|auto 10].
  destruct (_ <=? _); simpl; [|auto 10].
  destruct (Z.eqb_spec (len msg) 0) as [?|_]; [lia|]. simpl.
  destruct (Z.ltb_spec (EtlQueue.size (tags s)) SENDER_QUEUE_SIZE)
    as [Hlt|?]; [|lia].
  split; [reflexivity|]. split; [reflexivity|]. left. auto.
Qed.

(** Every call keeps the two counters at zero and the tag queue within
    its capacity, and takes no tag away. *)
Lemma step_keeps (s : t Tag) (o : op Tag) :
  itemCount s = 0 -> bytesCount s = 0 ->
  EtlQueue.size (tags s) <= SENDER_QUEUE_SIZE ->
  itemCount (step s o) = 0 /\
  bytesCount (step s o) = 0 /\
  EtlQueue.size (tags (step s o)) <= SENDER_QUEUE_SIZE /\
  exists more, tags (step s o) = tags s ++ more.
Proof.
  intros Hi Hb Hcap. destruct o as [|msg| |]; simpl.
  - repeat split; try assumption. exists []. now rewrite app_nil_r.
  - destruct (push_cases s msg Hcap) as (Hi' & Hb' & [H|H]).
    + destruct H as (_ & Hlt & _ & Ht). rewrite Hi', Hb', Ht.
      repeat split; try assumption; [|now exists [tag msg]].
      unfold EtlQueue.size in *. rewrite length_app. simpl. lia.
    + destruct H as (_ & _ & Ht). rewrite Hi', Hb', Ht.
      repeat split; try assumption. exists []. now rewrite app_nil_r.
  - unfold peek. rewrite Hi. simpl.
    repeat split; try assumption. exists []. now rewrite app_nil_r.
  - unfold pop. rewrite Hi. simpl.
    repeat split; try assumption. exists []. now rewrite app_nil_r.
Qed.

Lemma run_keeps (ops : list (op Tag)) :
  forall s : t Tag,
    itemCount s = 0 -> bytesCount s = 0 ->
    EtlQueue.size (tags s) <= SENDER_QUEUE_SIZE ->
    itemCount (run s ops) = 0 /\
    bytesCount (run s ops) = 0 /\
    EtlQueue.size (tags (run s ops)) <= SENDER_QUEUE_SIZE /\
    exists more, tags (run s ops) = tags s ++ more.
Proof.
  induction ops as [|o ops IH]; intros s Hi Hb Hcap.
  - simpl. repeat split; try assumption. exists []. now rewrite app_nil_r.
  - destruct (step_keeps s o Hi Hb Hcap) as (Hi1 & Hb1 & Hcap1 & more1 & Ht1).
    destruct (IH _ Hi1 Hb1 Hcap1) as (Hi2 & Hb2 & Hcap2 & more2 & Ht2).
    change (run s (o :: ops)) with (run (step s o) ops).
    repeat split; try assumption.
    exists (more1 ++ more2). now rewrite Ht2, Ht1, app_assoc.
Qed.

Lemma reachable_keeps (s : t Tag) :
  reachable s ->
  itemCount s = 0 /\ bytesCount s = 0 /\
  EtlQueue.size (tags s) <= SENDER_QUEUE_SIZE.
Proof.
  intros (ops & _ & <-).
  destruct (run_keeps ops (MessageQueue SIZE MAX_LINE_LEN))
    as (H1 & H2 & H3 & _); try reflexivity; [|auto].
  unfold EtlQueue.size, SENDER_QUEUE_SIZE. simpl. lia.
Qed.
End Template.
End MessageQueueClients.

(** X10.  A reachable [MessageQueue] always reports that it is empty:
    [count()] and [size()] are 0, [isEmpty()] holds, [available()] is the
    whole of [SIZE], and [peek] and [pop] return false and change nothing,
    however many records have been pushed. *)
Theorem MessageQueue_reports_empty
  (Tag : Type) (frame SIZE MAX_LINE_LEN : Z) (s : MessageQueue.t Tag) :
  MessageQueue.reachable frame SIZE MAX_LINE_LEN s ->
  MessageQueue.count s = 0 /\
  MessageQueue.size s = 0 /\
  MessageQueue.isEmpty s = true /\
  MessageQueue.available SIZE s = size_t SIZE /\
  MessageQueue.peek MAX_LINE_LEN s = (false, s, None) /\
  MessageQueue.pop MAX_LINE_LEN s = (false, s).
Proof.
  intros Hreach.
  destruct (MessageQueueClients.reachable_keeps frame SIZE MAX_LINE_LEN s Hreach)
    as (Hi & Hb & _).
  unfold MessageQueue.count, MessageQueue.size, MessageQueue.isEmpty,
    MessageQueue.available, MessageQueue.peek, MessageQueue.pop.
  rewrite Hi, Hb, Z.sub_0_r. auto 10.
Qed.

Lemma MessageQueue_reports_empty_witness :
  let pushes :=
    [MessageQueue.Push (MessageQueue.mkMessage [x41] 1 1%nat);
     MessageQueue.Push (MessageQueue.mkMessage [x42] 1 2%nat)] in
  let s := MessageQueue.run 4 100 (MessageQueue.MessageQueue 128 100) pushes in
  MessageBuffer.messages (MessageQueue.buf s) = [[x41]; [x42]] /\
  MessageQueue.count s = 0 /\
  MessageQueue.isEmpty s = true /\
  MessageQueue.pop 100 s = (false, s).
Proof.
  intros pushes s.
  assert (Hreach : MessageQueue.reachable 4 128 100 s).
  { exists pushes. split; [repeat constructor; simpl; lia|reflexivity]. }
  destruct (MessageQueue_reports_empty nat 4 128 100 s Hreach)
    as (H1 & _ & H3 & _ & _ & H6).
  split; [reflexivity|]. split; [exact H1|]. split; [exact H3|exact H6].
Defined.

(** X11.  [MessageQueue::push] takes the record and its tag together or
    neither: in a reachable state a push that returns true has appended the
    [len] bytes to the message buffer and the tag to the tag queue, and a
    push that returns false has changed neither. *)
Theorem MessageQueue_push_pairwise
  (Tag : Type) (frame SIZE MAX_LINE_LEN : Z)
  (s : MessageQueue.t Tag) (msg : MessageQueue.Message Tag) :
  MessageQueue.reachable frame SIZE MAX_LINE_LEN s ->
  let r := MessageQueue.push frame s msg in
  (fst r = true ->
   MessageBuffer.messages (MessageQueue.buf (snd r))
   = MessageBuffer.messages (MessageQueue.buf s)
     ++ [take (Z.to_nat (MessageQueue.len msg)) (MessageQueue.data msg)] /\
   MessageQueue.tags (snd r) = MessageQueue.tags s ++ [MessageQueue.tag msg])
  /\
  (fst r = false ->
   MessageBuffer.messages (MessageQueue.buf (snd r))
   = MessageBuffer.messages (MessageQueue.buf s) /\
   MessageQueue.tags (snd r) = MessageQueue.tags s).
Proof.
  intros Hreach r.
  destruct (MessageQueueClients.reachable_keeps frame SIZE MAX_LINE_LEN s Hreach)
    as (_ & _ & Hcap).
  destruct (MessageQueueClients.push_cases frame s msg Hcap) as (_ & _ & H).
  fold r in H. destruct H as [(Ht & _ & H)|(Hf & H)].
  - split; [intros _; exact H|]. rewrite Ht. discriminate.
  - split; [rewrite Hf; discriminate|]. intros _. exact H.
Qed.

Lemma MessageQueue_push_pairwise_witness :
  let s := MessageQueue.MessageQueue (Tag := nat) 128 100 in
  let r := MessageQueue.push 4 s (MessageQueue.mkMessage [x41; x42] 2 9%nat) in
  fst r = true /\
  MessageBuffer.messages (MessageQueue.buf (snd r)) = [[x41; x42]] /\
  MessageQueue.tags (snd r) = [9%nat].
Proof.
  intros s r.
  assert (Hreach : MessageQueue.reachable 4 128 100 s).
  { exists []. split; [constructor|reflexivity]. }
  destruct (MessageQueue_push_pairwise nat 4 128 100 s
              (MessageQueue.mkMessage [x41; x42] 2 9%nat) Hreach) as [H _].
  split; [reflexivity|]. exact (H eq_refl).
Defined.

(** X12.  A [MessageQueue] never lets go of a tag: whatever calls follow a
    reachable state, [clear] included, the tag queue keeps what it holds,
    and once it holds [SENDER_QUEUE_SIZE] tags it stays as it is and every
    further push returns false. *)
Theorem MessageQueue_tags_never_released
  (Tag : Type) (frame SIZE MAX_LINE_LEN : Z)
  (s : MessageQueue.t Tag) (ops : list (MessageQueue.op Tag)) :
  MessageQueue.reachable frame SIZE MAX_LINE_LEN s ->
  let s' := MessageQueue.run frame MAX_LINE_LEN s ops in
  (exists more, MessageQueue.tags s' = MessageQueue.tags s ++ more) /\
  (EtlQueue.size (MessageQueue.tags s) = SENDER_QUEUE_SIZE ->
   MessageQueue.tags s' = MessageQueue.tags s /\
   forall msg, MessageQueue.push frame s' msg = (false, s')).
Proof.
  intros Hreach s'.
  destruct (MessageQueueClients.reachable_keeps frame SIZE MAX_LINE_LEN s Hreach)
    as (Hi & Hb & Hcap).
  destruct (MessageQueueClients.run_keeps frame MAX_LINE_LEN ops s Hi Hb Hcap)
    as (_ & _ & Hcap' & more & Hmore).
  fold s' in Hcap', Hmore.
  split; [now exists more|]. intros Hfull.
  assert (Hnil : more = []).
  { unfold EtlQueue.size in *. rewrite Hmore, length_app in Hcap'.
    destruct more; [reflexivity|simpl in Hcap'; lia]. }
  subst more. rewrite app_nil_r in Hmore.
  split; [exact Hmore|]. intros msg.
  unfold MessageQueue.push, EtlQueue.available. rewrite Hmore, Hfull.
  reflexivity.
Qed.

Lemma MessageQueue_tags_never_released_witness :
  let pushes :=
    [MessageQueue.Push (MessageQueue.mkMessage [x41] 1 1%nat);
     MessageQueue.Push (MessageQueue.mkMessage [x42] 1 2%nat)] in
  let s := MessageQueue.run 4 100 (MessageQueue.MessageQueue 128 100) pushes in
  let s' := MessageQueue.run 4 100 s
              [MessageQueue.Pop; MessageQueue.Clear; MessageQueue.Pop] in
  MessageQueue.tags s = [1; 2]%nat /\
  exists more, MessageQueue.tags s' = MessageQueue.tags s ++ more.
Proof.
  intros pushes s s'.
  assert (Hreach : MessageQueue.reachable 4 128 100 s).
  { exists pushes. split; [repeat constructor; simpl; lia|reflexivity]. }
  split; [reflexivity|].
  exact (proj1 (MessageQueue_tags_never_released nat 4 128 100 s
                  [MessageQueue.Pop; MessageQueue.Clear; MessageQueue.Pop]
                  Hreach)).
Defined.

(** * Properties of the polling loop *)

(** ** Machine arithmetic *)

Lemma int_small (z : Z) : - 2 ^ 31 <= z < 2 ^ 31 -> int z = z.
Proof. intros H. unfold int. rewrite Z.mod_small; lia. Qed.

Lemma int8_t_small (z : Z) : - 2 ^ 7 <= z < 2 ^ 7 -> int8_t z = z.
Proof. intros H. unfold int8_t. rewrite Z.mod_small; lia. Qed.

(** ** Strings *)

Module StringFacts.
Import Ascii String.

Lemma prefix_append (p s t : string) :
  prefix p s = true -> prefix p (s ++ t) = true.
Proof.
  revert s. induction p as [|a p IH]; intros s H.
  - now destruct (s ++ t)%string.
  - destruct s as [|b s]; simpl in *; [discriminate|].
    destruct (ascii_dec a b); [now apply IH|discriminate].
Qed.

Lemma length_append (s t : string) :
  length (s ++ t) = (length s + length t)%nat.
Proof. induction s as [|a s IH]; simpl; [reflexivity|]. now rewrite IH. Qed.

Lemma prefix_shorter (p t s : string) :
  prefix (p ++ t) s = true -> prefix p s = true.
Proof.
  revert s. induction p as [|a p IH]; intros s H.
  - now destruct s.
  - destruct s as [|b s]; simpl in *; [discriminate|].
    destruct (ascii_dec a b); [now apply IH|discriminate].
Qed.

Lemma prefix_trans (p s t : string) :
  prefix p s = true -> prefix s t = true -> prefix p t = true.
Proof.
  revert s t. induction p as [|a p IH]; intros s t Hps Hst.
  - now destruct t.
  - destruct s as [|b s]; simpl in Hps; [discriminate|].
    destruct (ascii_dec a b) as [<-|]; [|discriminate].
    destruct t as [|c t]; simpl in *; [discriminate|].
    destruct (ascii_dec a c); [now apply (IH s)|discriminate].
Qed.

Lemma prefix_head (a : ascii) (p s : string) :
  prefix (String a p) s = true -> exists t, s = String a t.
Proof.
  destruct s as [|b s]; intros H; [discriminate H|].
  change (prefix (String a p) (String b s))
    with (if ascii_dec a b then prefix p s else false) in H.
  destruct (ascii_dec a b) as [<-|]; [now exists s|discriminate H].
Qed.

Lemma prefix_refl (s : string) : prefix s s = true.
Proof.
  induction s as [|a s IH]; simpl; [reflexivity|].
  destruct (ascii_dec a a); [exact IH|contradiction].
Qed.
End StringFacts.

(** X13.  [encISR] follows the last level of the first encoder pin, and a
    call moves [encVal] by one count at most; without an edge on the first
    pin the count stays. *)
Theorem encISR_step (e : Main.Encoder) (v1 v2 : Z) :
  - 2 ^ 31 < Main.encVal e < 2 ^ 31 - 1 ->
  let e' := Main.encISR e v1 v2 in
  Main.last1 e' = v1 /\
  (Main.encVal e' = Main.encVal e \/
   Main.encVal e' = Main.encVal e + 1 \/
   Main.encVal e' = Main.encVal e - 1) /\
  (v1 = Main.last1 e -> Main.encVal e' = Main.encVal e).
Proof.
  intros Hrange e'. subst e'. unfold Main.encISR, Main.HIGH, Main.LOW.
  simpl Main.last1. simpl Main.encVal.
  split; [reflexivity|].
  destruct (Z.eqb_spec v1 1), (Z.eqb_spec v1 0), (Z.eqb_spec (Main.last1 e) 0),
    (Z.eqb_spec (Main.last1 e) 1), (Z.eqb_spec v2 1), (Z.eqb_spec v2 0);
    simpl; rewrite ?int_small by lia; split; try lia; auto.
Qed.

Lemma encISR_step_witness :
  let e := Main.mkEncoder 5 Main.LOW in
  Main.encVal (Main.encISR e Main.HIGH Main.HIGH) = 5 \/
  Main.encVal (Main.encISR e Main.HIGH Main.HIGH) = 5 + 1 \/
  Main.encVal (Main.encISR e Main.HIGH Main.HIGH) = 5 - 1.
Proof.
  intros e.
  exact (proj1 (proj2 (encISR_step e Main.HIGH Main.HIGH ltac:(simpl; lia)))).
Defined.

(** X14.  A pulse on the first encoder pin (an edge and the edge back):
    with the second pin at the same level on both edges the two counts
    cancel and [encISR] is back in the state before the pulse; with the
    second pin changed in between, the pulse counts two, up when the
    second pin is HIGH at the rising or LOW at the falling edge first, down
    otherwise. *)
Theorem encISR_pulse (e : Main.Encoder) (v1 b1 b2 : Z) :
  - 2 ^ 31 + 2 < Main.encVal e < 2 ^ 31 - 2 ->
  (Main.last1 e = Main.LOW /\ v1 = Main.HIGH \/
   Main.last1 e = Main.HIGH /\ v1 = Main.LOW) ->
  (b1 = Main.LOW \/ b1 = Main.HIGH) ->
  (b2 = Main.LOW \/ b2 = Main.HIGH) ->
  let e' := Main.encISR (Main.encISR e v1 b1) (Main.last1 e) b2 in
  (b1 = b2 -> e' = e) /\
  (b1 <> b2 ->
   Main.last1 e' = Main.last1 e /\
   Main.encVal e'
   = Main.encVal e + (if b1 =? v1 then 2 else - 2)).
Proof.
  intros Hrange Hedge Hb1 Hb2 e'. subst e'. destruct e as [n l].
  unfold Main.encISR, Main.HIGH, Main.LOW in *. simpl in *.
  destruct Hedge as [[-> ->]|[-> ->]], Hb1 as [->| ->], Hb2 as [->| ->];
    simpl; rewrite ?(int_small (n - 1)), ?(int_small (n + 1)) by lia;
    rewrite ?int_small by lia;
    (split; [intros H; try discriminate H; f_equal; lia
            |intros H; first [contradiction|split; [reflexivity|lia]]]).
Qed.

Lemma encISR_pulse_witness :
  let e := Main.mkEncoder 5 Main.LOW in
  Main.encISR (Main.encISR e Main.HIGH Main.HIGH) Main.LOW Main.HIGH = e /\
  Main.encVal (Main.encISR (Main.encISR e Main.HIGH Main.HIGH) Main.LOW Main.LOW)
  = 5 + 2.
Proof.
  intros e. split.
  - exact (proj1 (encISR_pulse e Main.HIGH Main.HIGH Main.HIGH
                    ltac:(simpl; lia) (or_introl (conj eq_refl eq_refl))
                    (or_intror eq_refl) (or_intror eq_refl)) eq_refl).
  - exact (proj2 (proj2 (encISR_pulse e Main.HIGH Main.HIGH Main.LOW
                           ltac:(simpl; lia) (or_introl (conj eq_refl eq_refl))
                           (or_intror eq_refl) (or_introl eq_refl))
                    ltac:(discriminate))).
Defined.

(** X15.  [processPot] outside the dead bands: a reading below 2900 selects
    X, a reading between 3100 and 3600 selects Y and a reading above 3800
    selects Z, whatever axis was selected before. *)
Theorem processPot_settles (cAxis : Main.JogAxis.t) (v : Z) :
  (v < 2900 -> Main.processPot cAxis v = Main.JogAxis.X) /\
  (3100 < v < 3600 -> Main.processPot cAxis v = Main.JogAxis.Y) /\
  (3800 < v -> Main.processPot cAxis v = Main.JogAxis.Z).
Proof.
  unfold Main.processPot. rewrite !Z.gtb_ltb.
  destruct (Z.ltb_spec (3000 + 100) v), (Z.ltb_spec (3700 + 100) v),
    (Z.ltb_spec v (3700 - 100)), (Z.ltb_spec v (3000 - 100));
    destruct cAxis; simpl; repeat split; intros; try reflexivity; lia.
Qed.

Lemma processPot_settles_witness :
  Main.processPot Main.JogAxis.Z 100 = Main.JogAxis.X /\
  Main.processPot Main.JogAxis.X 4000 = Main.JogAxis.Z.
Proof.
  split.
  - exact (proj1 (processPot_settles Main.JogAxis.Z 100) ltac:(lia)).
  - exact (proj2 (proj2 (processPot_settles Main.JogAxis.X 4000)) ltac:(lia)).
Defined.

(** X16.  [processPot] in the dead bands and on a steady reading: between
    2900 and 3100 the axes X and Y stay selected and Z gives way to Y;
    between 3600 and 3800 the axes Y and Z stay selected and X gives way to
    Y; and a second call with the same reading changes nothing. *)
Theorem processPot_hysteresis (cAxis : Main.JogAxis.t) (v : Z) :
  (2900 <= v <= 3100 ->
   Main.processPot cAxis v
   = match cAxis with Main.JogAxis.Z => Main.JogAxis.Y | a => a end) /\
  (3600 <= v <= 3800 ->
   Main.processPot cAxis v
   = match cAxis with Main.JogAxis.X => Main.JogAxis.Y | a => a end) /\
  Main.processPot (Main.processPot cAxis v) v = Main.processPot cAxis v.
Proof.
  unfold Main.processPot. rewrite !Z.gtb_ltb.
  destruct (Z.ltb_spec (3000 + 100) v), (Z.ltb_spec (3700 + 100) v),
    (Z.ltb_spec v (3700 - 100)), (Z.ltb_spec v (3000 - 100));
    destruct cAxis; simpl; repeat split; intros; try reflexivity; lia.
Qed.

Lemma processPot_hysteresis_witness :
  Main.processPot Main.JogAxis.X 3050 = Main.JogAxis.X /\
  Main.processPot Main.JogAxis.Y 3050 = Main.JogAxis.Y /\
  Main.processPot Main.JogAxis.X 3700 = Main.JogAxis.Y.
Proof.
  split; [|split].
  - exact (proj1 (processPot_hysteresis Main.JogAxis.X 3050) ltac:(lia)).
  - exact (proj1 (processPot_hysteresis Main.JogAxis.Y 3050) ltac:(lia)).
  - exact (proj1 (proj2 (processPot_hysteresis Main.JogAxis.X 3700)) ltac:(lia)).
Defined.

(** ** processEnc and receiveResponses *)

Module Polling.
Import Ascii String.

(** X17.  [processEnc] pushes one jog command when the encoder count
    differs from the count of the last call and none when it does not; it
    then remembers the count, so that an immediate second call pushes
    nothing.  The command begins with the jog prefix and has between 14 and
    18 characters, whatever the axis, the direction and the distance. *)
Theorem processEnc_command
  (encVal lastEnc : Z) (cAxis : Main.JogAxis.t) (cDist : Main.JogDist.t) :
  let r := Main.processEnc encVal lastEnc cAxis cDist in
  snd r = encVal /\
  (encVal = lastEnc -> fst r = None) /\
  (encVal <> lastEnc ->
   exists command,
     fst r = Some command /\
     String.prefix "$J=G91 F100 " command = true /\
     (14 <= String.length command <= 18)%nat) /\
  fst (Main.processEnc encVal (snd r) cAxis cDist) = None.
Proof.
  intros r. subst r. unfold Main.processEnc. simpl snd.
  rewrite Z.eqb_refl. simpl.
  split; [reflexivity|].
  destruct (Z.eqb_spec encVal lastEnc) as [Heq|Hne]; simpl.
  - split; [reflexivity|]. split; [contradiction|reflexivity].
  - split; [contradiction|]. split; [|reflexivity]. intros _.
    eexists. split; [reflexivity|].
    destruct (_ >? 0), cAxis, cDist; simpl; split; (reflexivity || lia).
Qed.

Lemma processEnc_command_witness :
  exists command,
    fst (Main.processEnc 7 5 Main.JogAxis.Y Main.JogDist._01) = Some command /\
    String.prefix "$J=G91 F100 " command = true /\
    (14 <= String.length command <= 18)%nat.
Proof.
  exact (proj1 (proj2 (proj2 (processEnc_command 7 5 Main.JogAxis.Y
                                Main.JogDist._01)))
           ltac:(discriminate)).
Defined.

(** X18.  The direction of the jog command is the sign of the count
    difference narrowed to [int8_t]: up to 127 counts forward the command
    jogs forward and up to 128 counts backward it jogs backward, but 128 to
    256 counts forward give a backward command and 129 to 255 counts
    backward a forward one. *)
Theorem processEnc_direction
  (encVal lastEnc : Z) (cAxis : Main.JogAxis.t) (cDist : Main.JogDist.t) :
  - 2 ^ 30 <= encVal < 2 ^ 30 ->
  - 2 ^ 30 <= lastEnc < 2 ^ 30 ->
  let d := encVal - lastEnc in
  let forward :=
    ((("$J=G91 F100 " ++ Main.axisStr cAxis) ++ "") ++ Main.distStr cDist)%string in
  let backward :=
    ((("$J=G91 F100 " ++ Main.axisStr cAxis) ++ "-") ++ Main.distStr cDist)%string in
  let pushed := fst (Main.processEnc encVal lastEnc cAxis cDist) in
  (1 <= d <= 127 -> pushed = Some forward) /\
  (-128 <= d <= -1 -> pushed = Some backward) /\
  (128 <= d <= 256 -> pushed = Some backward) /\
  (-255 <= d <= -129 -> pushed = Some forward).
Proof.
  intros He Hl d forward backward pushed.
  subst pushed forward backward. unfold Main.processEnc. simpl fst.
  rewrite (int_small (encVal - lastEnc)) by lia. fold d.
  assert (Hdx : forall lo hi, lo <= d <= hi ->
                  (1 <= lo /\ hi <= 127 \/ -255 <= lo /\ hi <= -129 ->
                   (int8_t d >? 0) = true) /\
                  (-128 <= lo /\ hi <= -1 \/ 128 <= lo /\ hi <= 256 ->
                   (int8_t d >? 0) = false)).
  { intros lo hi Hd. rewrite Z.gtb_ltb. unfold int8_t.
    split; intros H; [apply Z.ltb_lt|apply Z.ltb_ge];
      Z.to_euclidean_division_equations; lia. }
  assert (Hne : forall lo hi, lo <= d <= hi -> 1 <= lo \/ hi <= -1 ->
                  negb (encVal =? lastEnc) = true).
  { intros lo hi Hd H. apply negb_true_iff, Z.eqb_neq. lia. }
  repeat split; intros Hd; rewrite (Hne _ _ Hd) by lia;
    [rewrite (proj1 (Hdx _ _ Hd)) by lia
    |rewrite (proj2 (Hdx _ _ Hd)) by lia
    |rewrite (proj2 (Hdx _ _ Hd)) by lia
    |rewrite (proj1 (Hdx _ _ Hd)) by lia]; reflexivity.
Qed.

Lemma processEnc_direction_witness :
  fst (Main.processEnc 3 0 Main.JogAxis.X Main.JogDist._001)
  = Some "$J=G91 F100 X0.01"%string /\
  fst (Main.processEnc 200 0 Main.JogAxis.X Main.JogDist._001)
  = Some "$J=G91 F100 X-0.01"%string.
Proof.
  split.
  - exact (proj1 (processEnc_direction 3 0 Main.JogAxis.X Main.JogDist._001
                    ltac:(lia) ltac:(lia)) ltac:(lia)).
  - exact (proj1 (proj2 (proj2
             (processEnc_direction 200 0 Main.JogAxis.X Main.JogDist._001
                ltac:(lia) ltac:(lia)))) ltac:(lia)).
Defined.

(** X19.  The jog command tells the axis, the direction and the distance:
    two calls of [processEnc] that push the same command were made with the
    same axis and the same distance, and their narrowed count differences
    have the same sign. *)
Theorem processEnc_command_injective
  (encVal lastEnc encVal' lastEnc' : Z)
  (cAxis cAxis' : Main.JogAxis.t) (cDist cDist' : Main.JogDist.t)
  (command : String.string) :
  fst (Main.processEnc encVal lastEnc cAxis cDist) = Some command ->
  fst (Main.processEnc encVal' lastEnc' cAxis' cDist') = Some command ->
  cAxis = cAxis' /\ cDist = cDist' /\
  (int8_t (int (encVal - lastEnc)) >? 0)
  = (int8_t (int (encVal' - lastEnc')) >? 0).
Proof.
  unfold Main.processEnc. simpl fst.
  destruct (negb (encVal =? lastEnc)); [|discriminate].
  destruct (negb (encVal' =? lastEnc')); [|discriminate].
  destruct (int8_t (int (encVal - lastEnc)) >? 0),
    (int8_t (int (encVal' - lastEnc')) >? 0),
    cAxis, cAxis', cDist, cDist'; simpl;
    intros H1 H2; rewrite <- H1 in H2; try discriminate H2; auto.
Qed.

Lemma processEnc_command_injective_witness :
  Main.JogAxis.Z = Main.JogAxis.Z /\ Main.JogDist._1 = Main.JogDist._1 /\
  (int8_t (int (9 - 4)) >? 0) = (int8_t (int (1 - 0)) >? 0).
Proof.
  exact (processEnc_command_injective 9 4 1 0 Main.JogAxis.Z Main.JogAxis.Z
           Main.JogDist._1 Main.JogDist._1 "$J=G91 F100 Z1"%string
           eq_refl eq_refl).
Defined.

Module ReceiveFacts.
Import Main.

(** The line buffer keeps what it holds at its front, and a call pops at
    most one acknowledgment per newline. *)
Lemma receive_grows (input : list ascii) :
  forall serialResponse : string,
    let r := receiveResponses serialResponse input in
    prefix serialResponse (fst r) = true /\
    length (fst r)
    = (length serialResponse
       + List.length (List.filter (fun ch => negb (Ascii.eqb ch newline)) input))%nat /\
    (List.length (snd r)
     <= List.length (List.filter (fun ch => Ascii.eqb ch newline) input))%nat.
Proof.
  induction input as [|ch input IH]; intros sr; cbv zeta.
  - simpl. rewrite Nat.add_0_r, StringFacts.prefix_refl. auto.
  - simpl. destruct (Ascii.eqb ch newline) eqn:E; simpl.
    + specialize (IH sr). cbv zeta in IH.
      destruct (receiveResponses sr input) as [s acks]. simpl in *.
      destruct IH as (H1 & H2 & H3). split; [exact H1|]. split; [exact H2|].
      destruct (prefix "ok" sr); [simpl; lia|].
      destruct (prefix "error" sr); simpl; lia.
    + specialize (IH (sr ++ String ch EmptyString)%string). cbv zeta in IH.
      destruct (receiveResponses (sr ++ String ch EmptyString)%string input)
        as [s acks]. simpl in *.
      destruct IH as (H1 & H2 & H3). split; [|split; [|exact H3]].
      * exact (StringFacts.prefix_shorter _ _ _ H1).
      * rewrite H2, StringFacts.length_append. simpl. lia.
Qed.

(** A buffer that begins with [p] makes every newline of the input pop
    as the buffer did before. *)
Lemma receive_sticks (p : string) (ack : list Ack) (input : list ascii) :
  forall serialResponse : string,
    prefix p serialResponse = true ->
    (forall s, prefix p s = true ->
               (if prefix "ok" s then [AckOk]
                else if prefix "error" s then [AckError] else []) = ack) ->
    snd (receiveResponses serialResponse input)
    = List.concat
        (List.map (fun _ => ack)
           (List.filter (fun ch => Ascii.eqb ch newline) input)).
Proof.
  induction input as [|ch input IH]; intros sr Hp Hack; [reflexivity|].
  simpl. destruct (Ascii.eqb ch newline) eqn:E; simpl.
  - specialize (IH sr Hp Hack).
    destruct (receiveResponses sr input) as [s acks]. simpl in *.
    now rewrite (Hack sr Hp), IH.
  - apply IH; [|exact Hack]. now apply StringFacts.prefix_append.
Qed.
End ReceiveFacts.

(** X20.  [receiveResponses] never empties its line buffer: after a call
    the buffer still begins with what it held before, it has grown by the
    characters received other than newlines, and at most one acknowledgment
    was popped per newline. *)
Theorem receiveResponses_buffer_grows
  (serialResponse : String.string) (input : list Ascii.ascii) :
  let r := Main.receiveResponses serialResponse input in
  let is_newline := fun ch => Ascii.eqb ch Main.newline in
  String.prefix serialResponse (fst r) = true /\
  String.length (fst r)
  = (String.length serialResponse
     + List.length (List.filter (fun ch => negb (is_newline ch)) input))%nat /\
  (List.length (snd r) <= List.length (List.filter is_newline input))%nat.
Proof. apply ReceiveFacts.receive_grows. Qed.

(** X21.  The verdict of [receiveResponses] is that of the first characters
    it ever received: while the buffer begins with ok, every newline pops an
    acknowledgment as for an ok line, whatever the line holds, and the buffer
    goes on beginning with ok; likewise for a buffer that begins with
    error. *)
Theorem receiveResponses_verdict_sticks
  (serialResponse : String.string) (input : list Ascii.ascii) :
  let r := Main.receiveResponses serialResponse input in
  let newlines :=
    List.length (List.filter (fun ch => Ascii.eqb ch Main.newline) input) in
  (String.prefix "ok" serialResponse = true ->
   snd r = repeat Main.AckOk newlines /\ String.prefix "ok" (fst r) = true) /\
  (String.prefix "error" serialResponse = true ->
   snd r = repeat Main.AckError newlines /\ String.prefix "error" (fst r) = true).
Proof.
  intros r newlines.
  assert (Hrep : forall (a : Main.Ack) (l : list Ascii.ascii),
             List.concat (List.map (fun _ => [a]) l) = repeat a (List.length l)).
  { intros a l. induction l as [|x l IH]; simpl; [reflexivity|]. now rewrite IH. }
  destruct (ReceiveFacts.receive_grows input serialResponse) as (Hgrow & _).
  fold r in Hgrow.
  assert (Htrans : forall p, String.prefix p serialResponse = true ->
                             String.prefix p (fst r) = true).
  { intros p Hp. exact (StringFacts.prefix_trans _ _ _ Hp Hgrow). }
  split; intros Hp.
  - split; [|now apply Htrans]. subst r newlines. rewrite <- Hrep.
    apply (ReceiveFacts.receive_sticks "ok"); [exact Hp|].
    intros s Hs. now rewrite Hs.
  - split; [|now apply Htrans]. subst r newlines. rewrite <- Hrep.
    apply (ReceiveFacts.receive_sticks "error"); [exact Hp|].
    intros s Hs. rewrite Hs.
    destruct (StringFacts.prefix_head _ _ _ Hs) as [t ->]. reflexivity.
Qed.

Lemma receiveResponses_verdict_sticks_witness :
  let nl := Main.newline in
  let input :=
    (String.list_ascii_of_string "error:1" ++ [nl]
     ++ String.list_ascii_of_string "ok" ++ [nl])%list in
  snd (Main.receiveResponses "ok"%string input) = [Main.AckOk; Main.AckOk].
Proof.
  intros nl input.
  exact (proj1 (proj1 (receiveResponses_verdict_sticks "ok"%string input)
                  eq_refl)).
Defined.
End Polling.
